(** * Bin2C: the byte-to-word packer and the declaration it writes

    A shallow embedding of [bin2c.c] (the current version of [main], the
    second one in the source file) together with the properties its
    description states about it.

    Conventions.
    - [unsigned int] and [uint32_t] values are integers in [Z]; every
      operation that can leave the 32-bit range is followed by [uint32].
    - The input buffer [buf] is a [list byte]; its length is [file_size].
    - C strings are [string]s; where the code depends on the terminating
      NUL of a buffer the buffer is modelled as a [list ascii].
    - The C library is the one of a 64-bit Unix system: [long] has 64
      bits and [atoi] is [(int) strtol(s, NULL, 10)].
    - [exit], [return] from [main] and behaviour the C standard leaves
      undefined are the constructors of [outcome]. *)

From Stdlib Require Import ZArith Lia List String Ascii Strings.Byte DecimalString.
From stdpp Require Import base list strings gmap.
Import ListNotations.

#[local] Open Scope Z_scope.

(** ** Machine integers and bytes *)

Definition uint32 (z : Z) : Z := z mod 2 ^ 32.

Definition byte_val (b : byte) : Z := Z.of_N (Byte.to_N b).

(** ** Element count: [array_size] (line 532) *)

Definition array_size (bitsize file_size : Z) : Z :=
  uint32 (file_size + uint32 (Z.shiftr bitsize 3 - 1)) / Z.shiftr bitsize 3.

(** ** printf conversions *)

Definition hex_digit (d : Z) : ascii :=
  if d <? 10 then ascii_of_N (Z.to_N (48 + d)) else ascii_of_N (Z.to_N (87 + d)).

(** The digits of [v] in base 16, most significant first, at least one
    digit; [fuel] bounds the number of digits (8 for a 32-bit value). *)
Fixpoint hex_digits (fuel : nat) (v : Z) (acc : string) : string :=
  match fuel with
  | O => acc
  | S f =>
      let acc' := String (hex_digit (v mod 16)) acc in
      if v / 16 =? 0 then acc' else hex_digits f (v / 16) acc'
  end.

Fixpoint zeros (n : nat) : string :=
  match n with
  | O => EmptyString
  | S m => String "0" (zeros m)
  end.

(** [%0<width>x] applied to a [uint32_t]: padded with zeros on the left up
    to [width], never truncated. *)
Definition fmt_0x (width : nat) (v : Z) : string :=
  let d := hex_digits 8 v EmptyString in
  (zeros (width - String.length d) +:+ d)%string.

(** [%u] *)
Definition fmt_u (v : Z) : string := NilZero.string_of_uint (N.to_uint (Z.to_N v)).

(** ** The packing loop (lines 536-571) *)

(** One emitted array element: what the three conditional [fprintf] calls
    of lines 545-554 (or 561-570) write. *)
Record emission := Emission { comma : bool; newline : bool; value : Z }.

Record packer := Packer {
  emitted : list emission;
  need_comma : bool;
  need_newline : bool;
  word : Z;
  bits : Z
}.

Definition packer_init : packer :=
  {| emitted := []; need_comma := false; need_newline := true; word := 0; bits := 0 |}.

Definition emit (st : packer) (w : Z) : list emission :=
  emitted st ++ [{| comma := need_comma st; newline := need_newline st; value := w |}].

(** Body of the [for] loop, for the byte [b] at index [idx]. *)
Definition pack_byte (bitsize : Z) (st : packer) (idx : Z) (b : byte) : packer :=
  let word' := Z.lor (word st) (uint32 (Z.shiftl (byte_val b) (bits st))) in
  let bits' := bits st + 8 in
  if bits' =? bitsize then
    {| emitted := emit st word';
       need_comma := true;
       need_newline := Z.land (uint32 (idx + 1)) 15 =? 0;
       word := 0;
       bits := 0 |}
  else
    {| emitted := emitted st;
       need_comma := need_comma st;
       need_newline := need_newline st;
       word := word';
       bits := bits' |}.

(** The [for] loop over [buf]; [idx] is the index of the head of [buf]. *)
Fixpoint pack_loop (bitsize : Z) (buf : list byte) (idx : Z) (st : packer) : packer :=
  match buf with
  | [] => st
  | b :: rest => pack_loop bitsize rest (uint32 (idx + 1)) (pack_byte bitsize st idx b)
  end.

(** The [if (bits > 0)] after the loop. *)
Definition pack_flush (st : packer) : list emission :=
  if 0 <? bits st then emit st (word st) else emitted st.

Definition pack (bitsize : Z) (buf : list byte) : list emission :=
  pack_flush (pack_loop bitsize buf 0 packer_init).

Definition print_word (bitsize v : Z) : string :=
  if bitsize =? 8 then ("0x" +:+ fmt_0x 2 v)%string
  else if bitsize =? 16 then ("0x" +:+ fmt_0x 4 v)%string
  else if bitsize =? 32 then ("0x" +:+ fmt_0x 8 v)%string
  else EmptyString.

Definition render (bitsize : Z) (e : emission) : string :=
  ((if comma e then ", " else "") +:+
   (if newline e then String "010" (String "009" EmptyString) else "") +:+
   print_word bitsize (value e))%string.

Fixpoint concat_strings (l : list string) : string :=
  match l with
  | [] => EmptyString
  | s :: r => (s +:+ concat_strings r)%string
  end.

(** The text between [{] and the closing line. *)
Definition array_body (bitsize : Z) (buf : list byte) : string :=
  concat_strings (map (render bitsize) (pack bitsize buf)).

(** ** C library functions on strings

    Arguments of [main] are C strings: they hold no NUL character. *)

Definition NUL : ascii := "000"%char.

Definition char_code (c : ascii) : Z := Z.of_N (N_of_ascii c).

(** [s[j]]; the terminator when [j] is the length of [s]. *)
Definition char_at (s : string) (j : nat) : ascii :=
  match String.get j s with
  | Some c => c
  | None => NUL
  end.

(** [&s[j]] *)
Fixpoint string_from (j : nat) (s : string) : string :=
  match j, s with
  | O, _ => s
  | S i, String _ r => string_from i r
  | S _, EmptyString => EmptyString
  end.

(** The character classes of [<ctype.h>] in the C locale. *)
Definition isdigit (c : ascii) : bool := (48 <=? char_code c) && (char_code c <=? 57).
Definition isupper (c : ascii) : bool := (65 <=? char_code c) && (char_code c <=? 90).
Definition islower (c : ascii) : bool := (97 <=? char_code c) && (char_code c <=? 122).
Definition isalpha (c : ascii) : bool := isupper c || islower c.
Definition isalnum (c : ascii) : bool := isalpha c || isdigit c.
Definition isspace (c : ascii) : bool :=
  (char_code c =? 32) || ((9 <=? char_code c) && (char_code c <=? 13)).

(** [strcmp(s1, s2) == 0] *)
Definition strcmp_eq (s1 s2 : string) : bool := String.eqb s1 s2.

(** [strncmp(s1, s2, n) == 0] *)
Fixpoint strncmp_eq (n : nat) (s1 s2 : string) : bool :=
  match n with
  | O => true
  | S m =>
      match s1, s2 with
      | EmptyString, EmptyString => true
      | String c1 r1, String c2 r2 => Ascii.eqb c1 c2 && strncmp_eq m r1 r2
      | _, _ => false
      end
  end.

(** [atoi] as the C library has it: [(int) strtol(s, NULL, 10)].
    [strtol] skips white space, takes an optional sign and the decimal
    digits up to the first other character, and gives [LONG_MAX] or
    [LONG_MIN] when the number is outside [long] (64 bits here); the
    conversion to [int] keeps the low 32 bits.  The C standard itself
    leaves [atoi] undefined outside [int]. *)
Fixpoint skip_spaces (s : string) : string :=
  match s with
  | String c r => if isspace c then skip_spaces r else s
  | EmptyString => s
  end.

Fixpoint digits_value (s : string) (acc : Z) : Z :=
  match s with
  | String c r => if isdigit c then digits_value r (10 * acc + (char_code c - 48)) else acc
  | EmptyString => acc
  end.

Definition LONG_MAX : Z := 2 ^ 63 - 1.
Definition LONG_MIN : Z := - 2 ^ 63.

(** Conversion of a [long] to [int]. *)
Definition int32 (z : Z) : Z := (z + 2 ^ 31) mod 2 ^ 32 - 2 ^ 31.

Definition strtol (s : string) : Z :=
  let v :=
    match skip_spaces s with
    | String "-" r => - digits_value r 0
    | String "+" r => digits_value r 0
    | t => digits_value t 0
    end in
  Z.max LONG_MIN (Z.min LONG_MAX v).

Definition atoi (s : string) : Z := int32 (strtol s).

(** [strrchr(s, c)]: index of the last occurrence of [c]. *)
Fixpoint strrchr (s : string) (c : ascii) : option nat :=
  match s with
  | EmptyString => None
  | String d r =>
      match strrchr r c with
      | Some i => Some (S i)
      | None => if Ascii.eqb d c then Some O else None
      end
  end.

Definition is_separator (c : ascii) : bool := Ascii.eqb c "\"%char || Ascii.eqb c "/"%char.

(** [strpbrk(s, "\\/")]: index of the first backslash or slash. *)
Fixpoint strpbrk_sep (s : string) : option nat :=
  match s with
  | EmptyString => None
  | String d r => if is_separator d then Some O else option_map S (strpbrk_sep r)
  end.

(** [strstr(s, "<c1><c2>") != NULL] *)
Fixpoint strstr2 (s : string) (c1 c2 : ascii) : bool :=
  match s with
  | String d ((String e _) as r) => (Ascii.eqb d c1 && Ascii.eqb e c2) || strstr2 r c1 c2
  | _ => false
  end.

(** [*ext = '\0'] for [ext = s + i]. *)
Definition truncate_at (i : nat) (s : string) : string := substring 0 i s.

(** ** Command line (lines 357-413) *)

Record config := Config {
  f_inputname : option string;
  f_outputname : option string;
  symbolname : option string;
  is_appending : bool;
  is_textfile : bool;
  is_mutable : bool;
  use_macro : bool;
  zero_terminate : bool;
  bitsize : Z
}.

Definition config_init : config :=
  {| f_inputname := None; f_outputname := None; symbolname := None;
     is_appending := false; is_textfile := false; is_mutable := false;
     use_macro := false; zero_terminate := false; bitsize := 8 |}.

(** The two functions that end the process with status 1. *)
Inductive failure :=
  | About (arg : option string)   (* about(arg) *)
  | Fatal (msg : string).          (* fatal(msg, ...) *)

Inductive parsed :=
  | Parsed (cfg : config)
  | Stopped (f : failure).

Definition set_appending (c : config) : config :=
  {| f_inputname := f_inputname c; f_outputname := f_outputname c; symbolname := symbolname c;
     is_appending := true; is_textfile := is_textfile c; is_mutable := is_mutable c;
     use_macro := use_macro c; zero_terminate := zero_terminate c; bitsize := bitsize c |}.
Definition set_textfile (c : config) : config :=
  {| f_inputname := f_inputname c; f_outputname := f_outputname c; symbolname := symbolname c;
     is_appending := is_appending c; is_textfile := true; is_mutable := is_mutable c;
     use_macro := use_macro c; zero_terminate := zero_terminate c; bitsize := bitsize c |}.
Definition set_mutable (c : config) : config :=
  {| f_inputname := f_inputname c; f_outputname := f_outputname c; symbolname := symbolname c;
     is_appending := is_appending c; is_textfile := is_textfile c; is_mutable := true;
     use_macro := use_macro c; zero_terminate := zero_terminate c; bitsize := bitsize c |}.
Definition set_macro (c : config) : config :=
  {| f_inputname := f_inputname c; f_outputname := f_outputname c; symbolname := symbolname c;
     is_appending := is_appending c; is_textfile := is_textfile c; is_mutable := is_mutable c;
     use_macro := true; zero_terminate := zero_terminate c; bitsize := bitsize c |}.
Definition set_zero (c : config) : config :=
  {| f_inputname := f_inputname c; f_outputname := f_outputname c; symbolname := symbolname c;
     is_appending := is_appending c; is_textfile := is_textfile c; is_mutable := is_mutable c;
     use_macro := use_macro c; zero_terminate := true; bitsize := bitsize c |}.
Definition set_bitsize (n : Z) (c : config) : config :=
  {| f_inputname := f_inputname c; f_outputname := f_outputname c; symbolname := symbolname c;
     is_appending := is_appending c; is_textfile := is_textfile c; is_mutable := is_mutable c;
     use_macro := use_macro c; zero_terminate := zero_terminate c; bitsize := n |}.
Definition set_symbolname (s : string) (c : config) : config :=
  {| f_inputname := f_inputname c; f_outputname := f_outputname c; symbolname := Some s;
     is_appending := is_appending c; is_textfile := is_textfile c; is_mutable := is_mutable c;
     use_macro := use_macro c; zero_terminate := zero_terminate c; bitsize := bitsize c |}.
Definition set_inputname (s : string) (c : config) : config :=
  {| f_inputname := Some s; f_outputname := f_outputname c; symbolname := symbolname c;
     is_appending := is_appending c; is_textfile := is_textfile c; is_mutable := is_mutable c;
     use_macro := use_macro c; zero_terminate := zero_terminate c; bitsize := bitsize c |}.
Definition set_outputname (s : string) (c : config) : config :=
  {| f_inputname := f_inputname c; f_outputname := Some s; symbolname := symbolname c;
     is_appending := is_appending c; is_textfile := is_textfile c; is_mutable := is_mutable c;
     use_macro := use_macro c; zero_terminate := zero_terminate c; bitsize := bitsize c |}.

Definition valid_bitsize (n : Z) : bool := (n =? 8) || (n =? 16) || (n =? 32).

(** The tests that select the [-b] and [-l] branches. *)
Definition is_bits_option (a : string) : bool :=
  strncmp_eq 2 a "-b" || strncmp_eq 6 a "--bits".
Definition is_label_option (a : string) : bool :=
  strncmp_eq 2 a "-l" || strncmp_eq 7 a "--label".

Definition bits_error : string := "Invalid bit size (must be 8, 16 or 32).".

(** The [for] loop over [argv[1..]]: [args] is what is left at [idx]. An
    option that takes its value from the next argument ([++idx]) consumes
    two elements. *)
Fixpoint parse_args (args : list string) (c : config) : parsed :=
  match args with
  | [] => Parsed c
  | a :: rest =>
      if Ascii.eqb (char_at a 0) "-" then
        if strcmp_eq a "-a" || strcmp_eq a "--append" then parse_args rest (set_appending c)
        else if is_bits_option a then
          let j := if Ascii.eqb (char_at a 1) "-" then 6%nat else 2%nat in
          if isdigit (char_at a j) then
            let n := uint32 (atoi (string_from j a)) in
            if valid_bitsize n then parse_args rest (set_bitsize n c)
            else Stopped (Fatal bits_error)
          else
            match rest with
            | v :: rest' =>
                if Ascii.eqb (char_at a j) NUL then
                  let n := uint32 (atoi v) in
                  if valid_bitsize n then parse_args rest' (set_bitsize n c)
                  else Stopped (Fatal bits_error)
                else Stopped (About (Some a))
            | [] => Stopped (About (Some a))
            end
        else if strcmp_eq a "-d" || strcmp_eq a "--define" then parse_args rest (set_macro c)
        else if strcmp_eq a "-h" || strcmp_eq a "--help" || strcmp_eq a "-?" then
          Stopped (About None)
        else if is_label_option a then
          let j := if Ascii.eqb (char_at a 1) "-" then 7%nat else 2%nat in
          if negb (Ascii.eqb (char_at a j) NUL) then
            parse_args rest (set_symbolname (string_from j a) c)
          else
            match rest with
            | v :: rest' => parse_args rest' (set_symbolname v c)
            | [] => Stopped (About (Some a))
            end
        else if strcmp_eq a "-m" || strcmp_eq a "--mutable" then parse_args rest (set_mutable c)
        else if strcmp_eq a "-t" || strcmp_eq a "--text" then parse_args rest (set_textfile c)
        else if strcmp_eq a "-z" || strcmp_eq a "--zero" then parse_args rest (set_zero c)
        else parse_args rest c
      else
        match f_inputname c, f_outputname c with
        | None, _ => parse_args rest (set_inputname a c)
        | Some _, None => parse_args rest (set_outputname a c)
        | Some _, Some _ =>
            Stopped (Fatal "Too many filenames. Use 'bin2c --help' for usage information.")
        end
  end.

(** ** Names (lines 418-479) *)

(** Default name of the output file (lines 418-429). *)
Definition default_output_name (inputname : string) : string :=
  let cut :=
    match strrchr inputname "." with
    | Some ext =>
        match strpbrk_sep inputname with
        | None => truncate_at ext inputname     (* remove old extension *)
        | Some _ => inputname
        end
    | None => inputname
    end in
  (cut +:+ ".h")%string.

(** [while (strpbrk(fpos, "\\/") != NULL) fpos = strpbrk(fpos, "\\/") + 1;]
    Every round shortens [fpos], so [String.length fpos] rounds are enough. *)
Fixpoint skip_dirs_loop (fuel : nat) (fpos : string) : string :=
  match strpbrk_sep fpos with
  | None => fpos
  | Some i =>
      match fuel with
      | O => fpos
      | S f => skip_dirs_loop f (string_from (S i) fpos)
      end
  end.

Definition skip_dirs (inputname : string) : string :=
  skip_dirs_loop (String.length inputname) inputname.

Definition remove_extension (name : string) : string :=
  match strrchr name "." with
  | Some ext => truncate_at ext name
  | None => name
  end.

(** The loop of lines 456-469: the text written into [symbolname]. *)
Fixpoint substitute (fpos basename fullname : string) : string :=
  match fpos with
  | EmptyString => EmptyString
  | String "$" (String "*" r) => (basename +:+ substitute r basename fullname)%string
  | String "$" (String "@" r) => (fullname +:+ substitute r basename fullname)%string
  | String c r => String c (substitute r basename fullname)
  end.

(** [symlen] of lines 447-451; the block is [malloc(symlen + 1)]. *)
Definition symbol_length (fpos basename fullname : string) : nat :=
  (String.length fpos
   + (if strstr2 fpos "$" "*" then String.length basename else 0)
   + (if strstr2 fpos "$" "@" then String.length fullname else 0))%nat.

(** The identifier check of lines 472-479 works in place on the block
    [symbolname].  [mem] is the part of the block that has been written:
    the characters of the name and the terminator.  What lies behind the
    terminator was never written or is outside the block, so a read there
    has no defined result: [None]. *)
Definition keep_or_underscore (legal : bool) (c : ascii) : ascii :=
  if legal then c else "_"%char.

Fixpoint sanitize_loop (mem : list ascii) : option (list ascii) :=
  match mem with
  | [] => None
  | c :: rest =>
      if Ascii.eqb c NUL then Some mem
      else
        match sanitize_loop rest with
        | Some rest' => Some (keep_or_underscore (isalnum c || Ascii.eqb c "_") c :: rest')
        | None => None
        end
  end.

Definition sanitize (mem : list ascii) : option (list ascii) :=
  match mem with
  | [] => None
  | c :: rest => sanitize_loop (keep_or_underscore (isalpha c || Ascii.eqb c "_") c :: rest)
  end.

(** The C string held by a block: the characters before the first NUL. *)
Fixpoint cstring (mem : list ascii) : string :=
  match mem with
  | [] => EmptyString
  | c :: rest => if Ascii.eqb c NUL then EmptyString else String c (cstring rest)
  end.

(** The block after [strcpy]/[strcat] of [s]. *)
Definition cbuffer (s : string) : list ascii := list_ascii_of_string s ++ [NUL].

Definition sanitize_name (s : string) : option string :=
  option_map cstring (sanitize (cbuffer s)).

(** Lines 430-479. [None]: a write past [symlen + 1] bytes, or the
    undefined read of [sanitize]. *)
Definition symbol_name (label : option string) (inputname : string) : option string :=
  let fullname := skip_dirs inputname in
  let basename := remove_extension fullname in
  let fpos := match label with Some l => l | None => "$*"%string end in
  let text := substitute fpos basename fullname in
  if (String.length text <=? symbol_length fpos basename fullname)%nat
  then sanitize_name text
  else None.

(** ** Files and the process *)

(** The files by name, and the names that cannot be opened for writing.
    Text mode is the one of POSIX systems, where it changes nothing (the
    usage text: Windows only).  Allocation does not fail.  The optional
    compression ([USE_BZ2]) is not compiled in. *)
Record world := World {
  files : gmap string (list byte);
  locked : gset string
}.

Inductive outcome :=
  | Exit (status : Z) (err : string) (w : world)
  | Undefined.

Definition nl : string := String "010" EmptyString.

Definition usage_head : string :=
  ("Bin2C converts a binary file to a C array declaration." +:+ nl +:+ nl +:+
   "Usage: bin2c input_file [output_file] [options]" +:+ nl +:+ nl +:+
   "Command line arguments:" +:+ nl +:+
   "  input_file         The binary file to convert." +:+ nl +:+
   "  output_file        The name of the generated file with the array declaration." +:+ nl +:+ nl)%string.

Definition usage_options : string :=
  ("Options:" +:+ nl +:+
   "  -a|--append         Append to the output file instead of overwriting." +:+ nl +:+
   "  -b|--bits <number>  Set the width of the array elements (default = 8)." +:+ nl +:+
   "  -d|--define         Declare the array size as a #define, instead of a" +:+ nl +:+
   "                      'const int'." +:+ nl +:+
   "  -h|--help           Show brief help." +:+ nl +:+
   "  -l|--label <name>   Set the symbol name for the array. In the label name," +:+ nl +:+
   "                      '$*' is replaced with the base filename (no extension)" +:+ nl +:+
   "                      and '$@' is replaced with the full filename. The default" +:+ nl +:+
   "                      label name is '$*'." +:+ nl +:+
   "  -m|--mutable        Declare the array as mutable (non-const)." +:+ nl +:+
   "  -t|--text           Open the input file as a text file (Windows only)." +:+ nl +:+
   "  -z|--zero           Append a zero terminator at the end of the array." +:+ nl +:+ nl)%string.

(** What [about] and [fatal] write to [stderr]. *)
Definition diagnostic (f : failure) : string :=
  match f with
  | About None => (usage_head +:+ usage_options)%string
  | About (Some arg) =>
      ("ERROR: Invalid option '" +:+ arg +:+ "'." +:+ nl +:+ nl +:+ usage_options)%string
  | Fatal msg => ("ERROR: " +:+ msg +:+ nl)%string
  end.

(** [exit(1)] from [about] or [fatal]. *)
Definition stop (f : failure) (w : world) : outcome := Exit 1 (diagnostic f) w.

(** Lines 486-495: [file_size] and the block [buf].  [calloc] clears the
    block, [fread] stores the bytes of the file that fit. *)
Definition file_size_of (zero_terminate : bool) (ftell : Z) : Z :=
  let file_size := uint32 ftell in
  if zero_terminate then uint32 (file_size + 1) else file_size.

Definition load_size (zero_terminate : bool) (contents : list byte) : Z :=
  file_size_of zero_terminate (Z.of_nat (length contents)).

Definition load_buffer (zero_terminate : bool) (contents : list byte) : list byte :=
  let n := Z.to_nat (load_size zero_terminate contents) in
  take n (contents ++ replicate n x00).

(** Lines 527-576: everything written to the output file. *)
Definition size_declaration (use_macro : bool) (symbol : string) (n : Z) : string :=
  if use_macro
  then ("#define " +:+ symbol +:+ "_size " +:+ fmt_u n +:+ nl)%string
  else ("const unsigned int " +:+ symbol +:+ "_size = " +:+ fmt_u n +:+ ";" +:+ nl)%string.

Definition array_head (is_mutable : bool) (bitsize : Z) (symbol : string) (n : Z) : string :=
  ((if is_mutable then "" else "const ") +:+
   "uint" +:+ fmt_u bitsize +:+ "_t " +:+ symbol +:+ "[" +:+ fmt_u n +:+ "] = {")%string.

Definition output_text (c : config) (symbol : string) (file_size : Z) (buf : list byte) : string :=
  let n := array_size (bitsize c) file_size in
  ((if is_appending c then ""
    else "/* generated by Bin2C */" +:+ nl +:+ "#include <stdint.h>") +:+
   nl +:+ nl +:+
   array_head (is_mutable c) (bitsize c) symbol n +:+
   array_body (bitsize c) buf +:+
   nl +:+ "};" +:+ nl +:+ nl +:+
   size_declaration (use_macro c) symbol n)%string.

(** [fopen(name, "wt")] or [fopen(name, "a+t")], the writes, [fclose]. *)
Definition write_file (append : bool) (name : string) (text : string) (w : world) : world :=
  let old :=
    if append then match files w !! name with Some d => d | None => [] end else [] in
  {| files := <[name := old ++ list_byte_of_string text]> (files w); locked := locked w |}.

Definition run (c : config) (w : world) : outcome :=
  match f_inputname c with
  | None => stop (Fatal "No input file. Use 'bin2c --help' for usage information.") w
  | Some inputname =>
      let outputname :=
        match f_outputname c with
        | Some o => o
        | None => default_output_name inputname
        end in
      match symbol_name (symbolname c) inputname with
      | None => Undefined
      | Some symbol =>
          match files w !! inputname with
          | None => stop (Fatal ("Failed to open " +:+ inputname +:+ " for reading.")) w
          | Some contents =>
              let file_size := load_size (zero_terminate c) contents in
              let buf := load_buffer (zero_terminate c) contents in
              if decide (outputname ∈ locked w)
              then stop (Fatal ("Failed to open " +:+ outputname +:+ " for writing")) w
              else Exit 0 "" (write_file (is_appending c) outputname
                                (output_text c symbol file_size buf) w)
          end
      end
  end.

Definition main (argv : list string) (w : world) : outcome :=
  match argv with
  | [] | [_] => stop (About None) w
  | _ :: args =>
      match parse_args args config_init with
      | Stopped f => stop f w
      | Parsed c => run c w
      end
  end.

(** What the output file holds after a run, as text. *)
Definition file_text (o : outcome) (name : string) : option string :=
  match o with
  | Exit _ _ w => option_map string_of_list_byte (files w !! name)
  | Undefined => None
  end.

Definition exit_status (o : outcome) : option Z :=
  match o with
  | Exit s _ _ => Some s
  | Undefined => None
  end.

(** ** The earlier version of the program (lines 34-278)

    The first [main] of the source file is the previous version of the
    tool.  It has no [-d] and no [-?], [-m] is [--macro] (the size as a
    macro), a label must start with a letter or an underscore, the symbol
    name is used as it is, and the array is always [const].  It shares
    the configuration record ([is_mutable] is never set). *)

Definition usage_options_v1 : string :=
  ("Options:" +:+ nl +:+
   "  -a|--append        Append to the output file instead of overwriting." +:+ nl +:+
   "  -b|--bits number   Set the width of the array elements (default = 8)." +:+ nl +:+
   "  -h|--help          Show brief help." +:+ nl +:+
   "  -l|--label name    Set the symbol name for the array." +:+ nl +:+
   "  -m|--macro         Declare the array size as a macro, instead of a variable." +:+ nl +:+
   "  -t|--text          Open the input file as a text file (Windows only)." +:+ nl +:+
   "  -z|--zero          Append a zero terminator at the end of the array." +:+ nl)%string.

(** What [about] (lines 34-54) and the [fprintf(stderr, ...)] before a
    [return 1] write. *)
Definition diagnostic_v1 (f : failure) : string :=
  match f with
  | About None => (usage_head +:+ usage_options_v1)%string
  | About (Some arg) =>
      ("ERROR: Invalid option '" +:+ arg +:+ "'." +:+ nl +:+ nl +:+ usage_options_v1)%string
  | Fatal msg => ("ERROR: " +:+ msg +:+ nl)%string
  end.

Definition stop_v1 (f : failure) (w : world) : outcome := Exit 1 (diagnostic_v1 f) w.

(** The label test of line 100. *)
Definition label_start_ok (l : string) : bool :=
  isalpha (char_at l 0) || Ascii.eqb (char_at l 0) "_".

Definition symbol_error (l : string) : string :=
  ("Invalid C symbol name '" +:+ l +:+ "'.")%string.

(** The [for] loop of lines 74-121. *)
Fixpoint parse_args_v1 (args : list string) (c : config) : parsed :=
  match args with
  | [] => Parsed c
  | a :: rest =>
      if Ascii.eqb (char_at a 0) "-" then
        if strcmp_eq a "-a" || strcmp_eq a "--append" then parse_args_v1 rest (set_appending c)
        else if is_bits_option a then
          let j := if Ascii.eqb (char_at a 1) "-" then 6%nat else 2%nat in
          if isdigit (char_at a j) then
            let n := uint32 (atoi (string_from j a)) in
            if valid_bitsize n then parse_args_v1 rest (set_bitsize n c)
            else Stopped (Fatal bits_error)
          else
            match rest with
            | v :: rest' =>
                if Ascii.eqb (char_at a j) NUL then
                  let n := uint32 (atoi v) in
                  if valid_bitsize n then parse_args_v1 rest' (set_bitsize n c)
                  else Stopped (Fatal bits_error)
                else Stopped (About (Some a))
            | [] => Stopped (About (Some a))
            end
        else if strcmp_eq a "-h" || strcmp_eq a "--help" then Stopped (About None)
        else if is_label_option a then
          let j := if Ascii.eqb (char_at a 1) "-" then 7%nat else 2%nat in
          if negb (Ascii.eqb (char_at a j) NUL) then
            if label_start_ok (string_from j a)
            then parse_args_v1 rest (set_symbolname (string_from j a) c)
            else Stopped (Fatal (symbol_error (string_from j a)))
          else
            match rest with
            | v :: rest' =>
                if label_start_ok v
                then parse_args_v1 rest' (set_symbolname v c)
                else Stopped (Fatal (symbol_error v))
            | [] => Stopped (About (Some a))
            end
        else if strcmp_eq a "-m" || strcmp_eq a "--macro" then parse_args_v1 rest (set_macro c)
        else if strcmp_eq a "-t" || strcmp_eq a "--text" then parse_args_v1 rest (set_textfile c)
        else if strcmp_eq a "-z" || strcmp_eq a "--zero" then parse_args_v1 rest (set_zero c)
        else parse_args_v1 rest c
      else
        match f_inputname c, f_outputname c with
        | None, _ => parse_args_v1 rest (set_inputname a c)
        | Some _, None => parse_args_v1 rest (set_outputname a c)
        | Some _, Some _ =>
            Stopped (Fatal "Too many filenames. Use 'bin2c --help' for usage information.")
        end
  end.

(** Lines 142-158: the label, or the base name of the input file. *)
Definition symbol_name_v1 (label : option string) (inputname : string) : string :=
  match label with
  | Some l => l
  | None => remove_extension (skip_dirs inputname)
  end.

(** Lines 214-261. *)
Definition output_text_v1 (c : config) (symbol : string) (file_size : Z) (buf : list byte)
  : string :=
  let n := array_size (bitsize c) file_size in
  ((if is_appending c then ""
    else "/* generated by Bin2C */" +:+ nl +:+ "#include <stdint.h>") +:+
   nl +:+ nl +:+
   "const uint" +:+ fmt_u (bitsize c) +:+ "_t " +:+ symbol +:+ "[" +:+ fmt_u n +:+ "] = {" +:+
   array_body (bitsize c) buf +:+
   nl +:+ "};" +:+ nl +:+ nl +:+
   size_declaration (use_macro c) symbol n)%string.

Definition run_v1 (c : config) (w : world) : outcome :=
  match f_inputname c with
  | None => stop_v1 (Fatal "No input file. Use 'bin2c --help' for usage information.") w
  | Some inputname =>
      let outputname :=
        match f_outputname c with
        | Some o => o
        | None => default_output_name inputname
        end in
      let symbol := symbol_name_v1 (symbolname c) inputname in
      match files w !! inputname with
      | None => stop_v1 (Fatal ("Failed to open " +:+ inputname +:+ " for reading.")) w
      | Some contents =>
          let file_size := load_size (zero_terminate c) contents in
          let buf := load_buffer (zero_terminate c) contents in
          if decide (outputname ∈ locked w)
          then stop_v1 (Fatal ("Failed to open " +:+ outputname +:+ " for writing")) w
          else Exit 0 "" (write_file (is_appending c) outputname
                            (output_text_v1 c symbol file_size buf) w)
      end
  end.

Definition main_v1 (argv : list string) (w : world) : outcome :=
  match argv with
  | [] | [_] => stop_v1 (About None) w
  | _ :: args =>
      match parse_args_v1 args config_init with
      | Stopped f => stop_v1 f w
      | Parsed c => run_v1 c w
      end
  end.

(** The arguments that mean the same to both versions: file names,
    [-a], [-b], [-t] and [-z]. *)
Definition shared_argument (a : string) : bool :=
  negb (Ascii.eqb (char_at a 0) "-")
  || strcmp_eq a "-a" || strcmp_eq a "--append"
  || is_bits_option a
  || strcmp_eq a "-t" || strcmp_eq a "--text"
  || strcmp_eq a "-z" || strcmp_eq a "--zero".

(** ** Reference notions used to state the properties

    These are not taken from the code: they say what the description of
    the tool means by a word, a group, a ceiling and unpacking. *)

(** [ceil(a / b)] for [b > 0]. *)
Definition ceil_div (a b : Z) : Z := - ((- a) / b).

Definition bytes_per_word (bitsize : Z) : nat := Z.to_nat (bitsize / 8).

(** Value of the byte at index [i], zero behind the end of the buffer. *)
Definition byte_at (buf : list byte) (i : nat) : Z :=
  match buf !! i with
  | Some b => byte_val b
  | None => 0
  end.

(** Little-endian value of the [k] bytes from index [start] on:
    the byte at [start + i] is worth [256 ^ i]. *)
Fixpoint le_sum (buf : list byte) (start k : nat) : Z :=
  match k with
  | O => 0
  | S m => byte_at buf start + 256 * le_sum buf (S start) m
  end.

(** Little-endian value of a group of bytes. *)
Fixpoint le_word (g : list byte) : Z :=
  match g with
  | [] => 0
  | b :: r => byte_val b + 256 * le_word r
  end.

(** The consecutive groups of [k] elements of [l]; the last may be short. *)
Fixpoint chunks_fuel {A} (fuel k : nat) (l : list A) : list (list A) :=
  match fuel with
  | O => []
  | S f =>
      match l with
      | [] => []
      | _ :: _ => take k l :: chunks_fuel f k (drop k l)
      end
  end.

Definition chunks {A} (k : nat) (l : list A) : list (list A) :=
  chunks_fuel (length l) k l.

(** The element the description expects at position [j], for the group
    [g] of [k]-byte words. *)
Definition expected_emission (k j : nat) (g : list byte) : emission :=
  {| comma := negb (j =? 0)%nat;
     newline := Z.of_nat (j * k) mod 16 =? 0;
     value := le_word g |}.

Definition byte_of_Z (v : Z) : byte :=
  match Byte.of_N (Z.to_N v) with
  | Some b => b
  | None => x00
  end.

(** The [k] bytes of a word, least significant first. *)
Fixpoint word_bytes (k : nat) (v : Z) : list byte :=
  match k with
  | O => []
  | S m => byte_of_Z (v mod 256) :: word_bytes m (v / 256)
  end.

(** Unpacking: the bytes of every word in order, cut to the original
    length [len] (which drops the padding of the last word). *)
Definition unpack (bitsize : Z) (len : nat) (ws : list Z) : list byte :=
  take len (concat (map (word_bytes (bytes_per_word bitsize)) ws)).

(** Legal at its position in a C identifier. *)
Definition legal_first (c : ascii) : bool := isalpha c || Ascii.eqb c "_".
Definition legal_next (c : ascii) : bool := isalnum c || Ascii.eqb c "_".

Definition legal_identifier (s : string) : bool :=
  match s with
  | EmptyString => false
  | String c r => legal_first c && forallb legal_next (list_ascii_of_string r)
  end.

(** The character-by-character replacement the description states. *)
Definition replace_illegal (s : string) : string :=
  match s with
  | EmptyString => EmptyString
  | String c r =>
      String (keep_or_underscore (legal_first c) c)
        (string_of_list_ascii
           (map (fun d => keep_or_underscore (legal_next d) d) (list_ascii_of_string r)))
  end.

Definition has_NUL (s : string) : bool :=
  existsb (fun c => Ascii.eqb c NUL) (list_ascii_of_string s).

Definition has_char (c : ascii) (s : string) : bool :=
  existsb (fun d => Ascii.eqb d c) (list_ascii_of_string s).

Definition has_separator (s : string) : bool :=
  existsb is_separator (list_ascii_of_string s).

(** The width a [-b]/[--bits] argument [a] asks for, given the arguments
    [rest] that follow it: the digits attached to the option, or else the
    next argument. *)
Definition bits_offset (a : string) : nat :=
  if Ascii.eqb (char_at a 1) "-" then 6%nat else 2%nat.

Definition requested_width (a : string) (rest : list string) : option Z :=
  if is_bits_option a then
    if isdigit (char_at a (bits_offset a))
    then Some (uint32 (atoi (string_from (bits_offset a) a)))
    else
      match rest with
      | v :: _ =>
          if Ascii.eqb (char_at a (bits_offset a)) NUL then Some (uint32 (atoi v)) else None
      | [] => None
      end
  else None.

(** Two hexadecimal digits. *)
Definition two_hex (v : Z) : string :=
  String (hex_digit (v / 16)) (String (hex_digit (v mod 16)) EmptyString).

(** A small file system for the scenarios: a three-byte file, an empty
    file, a file in a directory and a file whose name starts with a dot. *)
Definition example_world : world :=
  {| files :=
       <["in.bin"%string := [x01; x02; x03]]>
         (<["empty.bin"%string := []]>
            (<["dir/a.bin"%string := [xff]]>
               (<[".profile"%string := [x0a]]> ∅)));
     locked := ∅ |}.

(** The contents of a file of [2^32 - 1] bytes. *)
Definition big_file : list byte := replicate (Z.to_nat 4294967295) x00.

(** Reading a hexadecimal literal back: the value of a lower-case digit,
    of a digit string, and of [0x] followed by at least one digit. *)
Definition hex_digit_value (c : ascii) : option Z :=
  let n := char_code c in
  if (48 <=? n) && (n <=? 57) then Some (n - 48)
  else if (97 <=? n) && (n <=? 102) then Some (n - 87)
  else None.

Fixpoint hex_value_from (s : string) (acc : Z) : option Z :=
  match s with
  | EmptyString => Some acc
  | String c r =>
      match hex_digit_value c with
      | Some d => hex_value_from r (16 * acc + d)
      | None => None
      end
  end.

Definition parse_hex_literal (s : string) : option Z :=
  match s with
  | String "0" (String "x" (String c r)) => hex_value_from (String c r) 0
  | _ => None
  end.

(** The output file of a configuration with input file [inputname]. *)
Definition output_name (c : config) (inputname : string) : string :=
  match f_outputname c with
  | Some o => o
  | None => default_output_name inputname
  end.

(** How often the loop of lines 456-469 takes the [$*] branch and the
    [$@] branch on a label. *)
Fixpoint count_star (fpos : string) : nat :=
  match fpos with
  | EmptyString => 0
  | String "$" (String "*" r) => S (count_star r)
  | String "$" (String "@" r) => count_star r
  | String _ r => count_star r
  end.

Fixpoint count_at (fpos : string) : nat :=
  match fpos with
  | EmptyString => 0
  | String "$" (String "*" r) => count_at r
  | String "$" (String "@" r) => S (count_at r)
  | String _ r => count_at r
  end.

(** The number a decimal numeral denotes; the text must be a non-empty
    string of digits. *)
Fixpoint numeral_digits (s : string) (acc : Z) : option Z :=
  match s with
  | EmptyString => Some acc
  | String c r =>
      if isdigit c then numeral_digits r (10 * acc + (char_code c - 48)) else None
  end.

Definition numeral_value (s : string) : option Z :=
  match s with
  | EmptyString => None
  | String _ _ => numeral_digits s 0
  end.

(** The four ways to write the width [d] on the command line, each with
    the arguments [rest] behind it. *)
Definition bits_spellings (d : string) (rest : list string) : list (list string) :=
  [ ("-b" +:+ d)%string :: rest; ("--bits" +:+ d)%string :: rest;
    "-b"%string :: d :: rest; "--bits"%string :: d :: rest ].

(** * Properties *)

(** ** Arithmetic of the machine integers *)

Lemma uint32_small z : 0 <= z < 2 ^ 32 -> uint32 z = z.
Proof. intros H. unfold uint32. now apply Z.mod_small. Qed.

Lemma uint32_succ n : uint32 (uint32 n + 1) = uint32 (n + 1).
Proof. unfold uint32. now rewrite Zplus_mod_idemp_l. Qed.

Lemma uint32_range z : 0 <= uint32 z < 2 ^ 32.
Proof. unfold uint32. apply Z.mod_pos_bound. lia. Qed.

Lemma land15_uint32 x : Z.land (uint32 x) 15 = x mod 16.
Proof.
  change 15 with (Z.ones 4). rewrite Z.land_ones by lia.
  unfold uint32. change 16 with (2 ^ 4). apply Z.mod_mod_divide.
  exists (2 ^ 28). reflexivity.
Qed.

Lemma byte_val_range b : 0 <= byte_val b < 256.
Proof.
  unfold byte_val. pose proof (Byte.to_N_bounded b). lia.
Qed.

Lemma lor_shifted a b s :
  0 <= s -> 0 <= a < 2 ^ s -> Z.lor a (Z.shiftl b s) = a + b * 2 ^ s.
Proof.
  intros Hs Ha. rewrite <- Z.add_nocarry_lor.
  - now rewrite Z.shiftl_mul_pow2.
  - apply Z.bits_inj'. intros n Hn.
    rewrite Z.land_spec, Z.bits_0.
    destruct (Z_lt_le_dec n s) as [Hlt | Hge].
    + rewrite (Z.shiftl_spec_low b s n Hlt). apply andb_false_r.
    + rewrite <- (Z.mod_small a (2 ^ s)) by lia.
      rewrite Z.mod_pow2_bits_high by lia. reflexivity.
Qed.

Lemma le_word_range g : 0 <= le_word g < 2 ^ (8 * Z.of_nat (length g)).
Proof.
  induction g as [| b g IH].
  - simpl. lia.
  - cbn [le_word length]. pose proof (byte_val_range b).
    replace (8 * Z.of_nat (S (length g))) with (8 + 8 * Z.of_nat (length g)) by lia.
    rewrite Z.pow_add_r by lia. change (2 ^ 8) with 256. nia.
Qed.

Lemma le_word_app g h :
  le_word (g ++ h) = le_word g + le_word h * 2 ^ (8 * Z.of_nat (length g)).
Proof.
  induction g as [| b g IH].
  - simpl. lia.
  - cbn [le_word length app]. rewrite IH.
    replace (8 * Z.of_nat (S (length g))) with (8 + 8 * Z.of_nat (length g)) by lia.
    rewrite Z.pow_add_r by lia. change (2 ^ 8) with 256. ring.
Qed.

(** ** The packing loop *)

Lemma pack_loop_app w a b n st :
  pack_loop w (a ++ b) (uint32 n) st =
  pack_loop w b (uint32 (n + Z.of_nat (length a))) (pack_loop w a (uint32 n) st).
Proof.
  revert n st. induction a as [| x a IH]; intros n st.
  - simpl. now rewrite Z.add_0_r.
  - cbn [app pack_loop length]. rewrite uint32_succ, IH.
    do 2 f_equal. lia.
Qed.

(** Bytes that do not complete a word only grow the accumulator. *)
Lemma pack_loop_partial w g : forall idx st,
  0 <= bits st -> 0 <= word st < 2 ^ bits st ->
  bits st + 8 * Z.of_nat (length g) < w -> w <= 32 ->
  pack_loop w g idx st =
  {| emitted := emitted st; need_comma := need_comma st; need_newline := need_newline st;
     word := word st + le_word g * 2 ^ bits st;
     bits := bits st + 8 * Z.of_nat (length g) |}.
Proof.
  induction g as [| b g IH]; intros idx st Hb Hw Hlt Hmax.
  - destruct st; cbn in *. f_equal; lia.
  - cbn [pack_loop length le_word] in *.
    pose proof (byte_val_range b) as Hbv.
    pose proof (le_word_range g) as Hg.
    assert (Hpow : 2 ^ (bits st + 8) = 2 ^ bits st * 256)
      by (rewrite Z.pow_add_r by lia; reflexivity).
    assert (Hpos : 0 < 2 ^ bits st) by (apply Z.pow_pos_nonneg; lia).
    assert (Hsh : uint32 (Z.shiftl (byte_val b) (bits st)) = byte_val b * 2 ^ bits st).
    { rewrite Z.shiftl_mul_pow2 by lia. apply uint32_small. split; [nia |].
      apply Z.lt_le_trans with (2 ^ (bits st + 8)); [rewrite Hpow; nia |].
      apply Z.pow_le_mono_r; lia. }
    unfold pack_byte. rewrite Hsh.
    destruct (Z.eqb_spec (bits st + 8) w) as [Heq | Hne]; [lia |].
    rewrite IH; cbn [bits word emitted need_comma need_newline]; try lia.
    + rewrite <- (Z.shiftl_mul_pow2 (byte_val b)) by lia.
      rewrite lor_shifted by lia. rewrite Hpow. f_equal; [ring | lia].
    + rewrite <- (Z.shiftl_mul_pow2 (byte_val b)) by lia.
      rewrite lor_shifted by lia. rewrite Hpow. nia.
Qed.

(** The byte that completes a word emits it and clears the accumulator. *)
Lemma pack_loop_complete w g n st :
  bits st = 0 -> word st = 0 -> g <> [] ->
  8 * Z.of_nat (length g) = w -> w <= 32 ->
  pack_loop w g (uint32 n) st =
  {| emitted := emit st (le_word g); need_comma := true;
     need_newline := (n + Z.of_nat (length g)) mod 16 =? 0;
     word := 0; bits := 0 |}.
Proof.
  intros Hb Hw Hne Hlen Hmax.
  destruct (exists_last Hne) as [h [b ->]].
  rewrite length_app in Hlen. cbn [length] in Hlen.
  rewrite pack_loop_app.
  rewrite (pack_loop_partial w h) by (rewrite ?Hb, ?Hw; simpl; lia).
  cbn [pack_loop]. unfold pack_byte. cbn [bits word emitted need_comma need_newline].
  rewrite Hb, Hw. cbn [Z.add].
  pose proof (byte_val_range b) as Hbv.
  pose proof (le_word_range h) as Hh.
  replace (0 + 8 * Z.of_nat (length h) + 8) with w by lia.
  rewrite Z.eqb_refl.
  assert (Hpos : 0 < 2 ^ (8 * Z.of_nat (length h))) by (apply Z.pow_pos_nonneg; lia).
  assert (Hsh : uint32 (Z.shiftl (byte_val b) (8 * Z.of_nat (length h)))
                = byte_val b * 2 ^ (8 * Z.of_nat (length h))).
  { rewrite Z.shiftl_mul_pow2 by lia. apply uint32_small. split; [nia |].
    apply Z.lt_le_trans with (2 ^ (8 * Z.of_nat (length h) + 8)).
    - rewrite Z.pow_add_r by lia. change (2 ^ 8) with 256. nia.
    - apply Z.pow_le_mono_r; lia. }
  rewrite (Z.add_0_l (8 * Z.of_nat (length h))), (Z.add_0_l (le_word h * 2 ^ 0)).
  change (2 ^ 0) with 1. rewrite Z.mul_1_r.
  rewrite Hsh, <- (Z.shiftl_mul_pow2 (byte_val b)) by lia.
  rewrite lor_shifted by lia.
  rewrite uint32_succ, land15_uint32, length_app. cbn [length].
  unfold emit. cbn [emitted need_comma need_newline].
  rewrite le_word_app. cbn [le_word].
  replace (n + Z.of_nat (length h) + 1) with (n + Z.of_nat (length h + 1)) by lia.
  do 4 f_equal. lia.
Qed.

(** ** Groups of bytes *)

Lemma chunks_fuel_enough {A} (k : nat) : forall (f f' : nat) (l : list A),
  (0 < k)%nat -> (length l <= f)%nat -> (length l <= f')%nat ->
  chunks_fuel f k l = chunks_fuel f' k l.
Proof.
  induction f as [| f IH]; intros f' l Hk Hf Hf'.
  - destruct l; [| cbn in Hf; lia]. destruct f'; reflexivity.
  - destruct l as [| x l]; [destruct f'; reflexivity |].
    destruct f' as [| f']; [cbn in Hf'; lia |].
    cbn [chunks_fuel]. f_equal.
    apply IH; [lia | |]; rewrite length_drop; cbn [length] in *; lia.
Qed.

Lemma chunks_nil {A} (k : nat) : chunks k (@nil A) = [].
Proof. reflexivity. Qed.

Lemma chunks_step {A} (k : nat) (l : list A) :
  (0 < k)%nat -> l <> [] -> chunks k l = take k l :: chunks k (drop k l).
Proof.
  intros Hk Hl. destruct l as [| x l]; [congruence |].
  unfold chunks at 1. cbn [length chunks_fuel]. f_equal.
  unfold chunks. apply chunks_fuel_enough; [lia | | lia].
  rewrite length_drop. cbn [length]. lia.
Qed.

Lemma chunks_length {A} (k : nat) : forall l : list A,
  (0 < k)%nat ->
  Z.of_nat (length (chunks k l)) = ceil_div (Z.of_nat (length l)) (Z.of_nat k).
Proof.
  intros l Hk. remember (length l) as n eqn:Hn. revert l Hn.
  induction n as [n IH] using lt_wf_ind. intros l Hn.
  destruct l as [| x l].
  - subst n. reflexivity.
  - rewrite chunks_step by (lia || congruence). cbn [length].
    rewrite Nat2Z.inj_succ.
    rewrite (IH (length (drop k (x :: l)))) by (try rewrite length_drop; subst n; cbn [length]; lia).
    rewrite length_drop. subst n. unfold ceil_div.
    destruct (Nat.le_gt_cases (length (x :: l)) k) as [Hle | Hgt].
    + replace (length (x :: l) - k)%nat with 0%nat by lia.
      cbn [length] in *. change (- Z.of_nat 0) with 0.
      rewrite Z.div_0_l by lia.
      assert (H : - Z.of_nat (S (length l)) / Z.of_nat k = -1); [| lia].
      symmetry. apply (Z.div_unique _ _ _ (Z.of_nat k - Z.of_nat (S (length l)))); lia.
    + rewrite Nat2Z.inj_sub by lia.
      replace (- (Z.of_nat (length (x :: l)) - Z.of_nat k))
        with (- Z.of_nat (length (x :: l)) + 1 * Z.of_nat k) by lia.
      rewrite Z.div_add by lia. lia.
Qed.

Lemma chunks_lookup {A} (k : nat) : forall (l : list A) (j : nat) (g : list A),
  (0 < k)%nat -> chunks k l !! j = Some g -> g = take k (drop (j * k) l).
Proof.
  intros l j g Hk. remember (length l) as n eqn:Hn. revert l j g Hn.
  induction n as [n IH] using lt_wf_ind. intros l j g Hn Hg.
  destruct l as [| x l]; [rewrite chunks_nil in Hg; discriminate |].
  rewrite chunks_step in Hg by (lia || congruence).
  destruct j as [| j].
  - cbn in Hg. injection Hg as <-. reflexivity.
  - cbn [lookup list_lookup] in Hg.
    assert (Hlt : (length (drop k (x :: l)) < n)%nat)
      by (rewrite length_drop; subst n; cbn [length]; lia).
    rewrite (IH _ Hlt (drop k (x :: l)) j g eq_refl Hg), drop_drop.
    reflexivity.
Qed.

Lemma le_word_take_drop (buf : list byte) : forall (k start : nat),
  le_word (take k (drop start buf)) = le_sum buf start k.
Proof.
  induction k as [| k IH]; intros start.
  - reflexivity.
  - cbn [le_sum]. unfold byte_at.
    destruct (buf !! start) as [b |] eqn:Hb.
    + rewrite (drop_S _ _ _ Hb). cbn [take le_word]. now rewrite IH.
    + rewrite drop_ge by (now apply lookup_ge_None). cbn [take le_word].
      rewrite <- IH, drop_ge by (apply lookup_ge_None in Hb; lia).
      rewrite take_nil. reflexivity.
Qed.

(** ** What the loop emits *)

Section Packing.

(** [k] bytes per word, for a word of [w = 8 * k] bits that fits the
    32-bit accumulator. *)
Variables (w : Z) (k : nat).
Hypothesis Hk : (0 < k)%nat.
Hypothesis Hw : w = 8 * Z.of_nat k.
Hypothesis Hmax : w <= 32.

Lemma pack_loop_chunks : forall (n : nat) (buf : list byte) (j0 : nat) (em : list emission),
  length buf = n ->
  pack_flush
    (pack_loop w buf (uint32 (Z.of_nat (j0 * k)))
       {| emitted := em; need_comma := negb (j0 =? 0)%nat;
          need_newline := Z.of_nat (j0 * k) mod 16 =? 0;
          word := 0; bits := 0 |})
  = em ++ imap (fun j => expected_emission k (j0 + j)) (chunks k buf).
Proof using Hk Hw Hmax.
  induction n as [n IH] using lt_wf_ind. intros buf j0 em Hn.
  destruct buf as [| x buf].
  { cbn. now rewrite app_nil_r. }
  rewrite chunks_step by (lia || congruence).
  rewrite imap_cons.
  destruct (Nat.le_gt_cases k (length (x :: buf))) as [Hfull | Hshort].
  - rewrite <- (take_drop k (x :: buf)) at 1.
    assert (Hlen : length (take k (x :: buf)) = k) by (rewrite length_take; lia).
    rewrite pack_loop_app.
    rewrite (pack_loop_complete w (take k (x :: buf)));
      [| reflexivity | reflexivity | | lia | lia].
    2:{ intros E. rewrite E in Hlen. cbn in Hlen. lia. }
    rewrite Hlen.
    replace (Z.of_nat (j0 * k) + Z.of_nat k) with (Z.of_nat ((j0 + 1) * k)) by lia.
    unfold emit. cbn [emitted need_comma need_newline].
    replace true with (negb (j0 + 1 =? 0)%nat)
      by (destruct (Nat.eqb_spec (j0 + 1) 0); [lia | reflexivity]).
    rewrite (IH (length (drop k (x :: buf))));
      [| rewrite length_drop; lia | reflexivity].
    rewrite <- app_assoc. cbn [app]. f_equal.
    unfold expected_emission at 2. rewrite Nat.add_0_r. f_equal.
    apply imap_ext. intros i g _. cbn. f_equal. lia.
  - rewrite take_ge by lia. rewrite drop_ge by lia.
    rewrite chunks_nil. cbn [imap].
    rewrite (pack_loop_partial w (x :: buf));
      cbn [bits word emitted need_comma need_newline]; [| lia | lia | lia | lia].
    unfold pack_flush. cbn [bits word emitted need_comma need_newline length].
    destruct (Z.ltb_spec 0 (0 + 8 * Z.of_nat (S (length buf)))) as [_ | Hbad]; [| lia].
    unfold emit. cbn [emitted need_comma need_newline].
    unfold expected_emission. rewrite Nat.add_0_r.
    change (2 ^ 0) with 1. do 3 f_equal. lia.
Qed.

(** The emitted elements, one per group of [k] bytes. *)
Lemma pack_chunks (buf : list byte) :
  pack w buf = imap (expected_emission k) (chunks k buf).
Proof using Hk Hw Hmax.
  unfold pack, packer_init.
  exact (pack_loop_chunks (length buf) buf 0 [] eq_refl).
Qed.

End Packing.

(** ** Word widths *)

Lemma valid_bitsize_cases w : valid_bitsize w = true -> w = 8 \/ w = 16 \/ w = 32.
Proof.
  unfold valid_bitsize. intros H.
  destruct (Z.eqb_spec w 8); [now left |].
  destruct (Z.eqb_spec w 16); [now right; left |].
  destruct (Z.eqb_spec w 32); [now right; right |].
  discriminate.
Qed.

Lemma pack_valid w buf :
  valid_bitsize w = true ->
  pack w buf =
  imap (expected_emission (bytes_per_word w)) (chunks (bytes_per_word w) buf).
Proof.
  intros H. destruct (valid_bitsize_cases w H) as [-> | [-> | ->]];
    [ change (bytes_per_word 8) with 1%nat
    | change (bytes_per_word 16) with 2%nat
    | change (bytes_per_word 32) with 4%nat ];
    apply pack_chunks; lia.
Qed.

Lemma bytes_per_word_pos w : valid_bitsize w = true -> (0 < bytes_per_word w)%nat.
Proof.
  intros H. destruct (valid_bitsize_cases w H) as [-> | [-> | ->]];
    [ change (bytes_per_word 8) with 1%nat
    | change (bytes_per_word 16) with 2%nat
    | change (bytes_per_word 32) with 4%nat ]; lia.
Qed.

Lemma pack_lookup w buf j e :
  valid_bitsize w = true -> pack w buf !! j = Some e ->
  e = expected_emission (bytes_per_word w) j
        (take (bytes_per_word w) (drop (j * bytes_per_word w) buf)).
Proof.
  intros H He. rewrite (pack_valid w buf H) in He.
  apply list_lookup_imap_Some in He as [g [Hg ->]].
  f_equal. now apply chunks_lookup; [apply bytes_per_word_pos |].
Qed.

Lemma pack_length w buf :
  valid_bitsize w = true ->
  Z.of_nat (length (pack w buf)) = ceil_div (Z.of_nat (length buf)) (w / 8).
Proof.
  intros H. rewrite (pack_valid w buf H), length_imap.
  rewrite chunks_length by now apply bytes_per_word_pos.
  f_equal. unfold bytes_per_word.
  destruct (valid_bitsize_cases w H) as [-> | [-> | ->]]; reflexivity.
Qed.

(** ** Hexadecimal text *)

Lemma string_length_app (s t : string) :
  String.length (s +:+ t) = (String.length s + String.length t)%nat.
Proof. induction s as [| c s IH]; simpl; [reflexivity | now f_equal]. Qed.

Lemma zeros_length n : String.length (zeros n) = n.
Proof. induction n as [| n IH]; cbn; [reflexivity | now rewrite IH]. Qed.

Lemma hex_digits_length : forall (f n : nat) (v : Z) (acc : string),
  0 <= v < 16 ^ Z.of_nat n -> (1 <= n <= f)%nat ->
  (String.length acc + 1 <= String.length (hex_digits f v acc) <= String.length acc + n)%nat.
Proof.
  induction f as [| f IH]; intros n v acc Hv Hn; [lia |].
  cbn [hex_digits].
  destruct (Z.eqb_spec (v / 16) 0) as [Hz | Hnz].
  - cbn [String.length]. lia.
  - assert (Hn2 : (2 <= n)%nat).
    { destruct (Nat.le_gt_cases 2 n) as [| Hlt]; [assumption |].
      assert (n = 1%nat) as -> by lia. change (16 ^ Z.of_nat 1) with 16 in Hv.
      exfalso. apply Hnz. apply Z.div_small. lia. }
    assert (Hdiv : 0 <= v / 16 < 16 ^ Z.of_nat (n - 1)).
    { split; [apply Z.div_pos; lia |].
      apply Z.div_lt_upper_bound; [lia |].
      replace (16 * 16 ^ Z.of_nat (n - 1)) with (16 ^ Z.of_nat n); [lia |].
      replace (Z.of_nat n) with (1 + Z.of_nat (n - 1)) by lia.
      rewrite Z.pow_add_r by lia. reflexivity. }
    specialize (IH (n - 1)%nat (v / 16) (String (hex_digit (v mod 16)) acc) Hdiv).
    cbn [String.length] in IH. lia.
Qed.

Lemma fmt_0x_length (n : nat) (v : Z) :
  0 <= v < 16 ^ Z.of_nat n -> (1 <= n <= 8)%nat -> String.length (fmt_0x n v) = n.
Proof.
  intros Hv Hn. unfold fmt_0x.
  pose proof (hex_digits_length 8 n v EmptyString Hv ltac:(lia)) as H.
  cbn [String.length] in H.
  rewrite string_length_app, zeros_length. lia.
Qed.

Lemma print_word_length w v :
  valid_bitsize w = true -> 0 <= v < 2 ^ w ->
  String.length (print_word w v) = (2 + Z.to_nat (w / 4))%nat.
Proof.
  intros H Hv. unfold print_word.
  destruct (valid_bitsize_cases w H) as [-> | [-> | ->]]; cbn [Z.eqb Pos.eqb];
    rewrite string_length_app, fmt_0x_length; try reflexivity; try lia;
    (split; [lia | apply Z.lt_le_trans with (1 := proj2 Hv); cbn; lia]).
Qed.

(** ** Unpacking *)

Lemma byte_of_Z_val b : byte_of_Z (byte_val b) = b.
Proof. unfold byte_of_Z, byte_val. now rewrite N2Z.id, Byte.of_to_N. Qed.

Lemma word_bytes_zero k : word_bytes k 0 = replicate k x00.
Proof.
  induction k as [| k IH]; [reflexivity |].
  cbn [word_bytes replicate]. change (0 / 256) with 0. now rewrite IH.
Qed.

Lemma word_bytes_le_word : forall (k : nat) (g : list byte),
  (length g <= k)%nat ->
  word_bytes k (le_word g) = g ++ replicate (k - length g) x00.
Proof.
  induction k as [| k IH]; intros g Hg.
  - destruct g; [reflexivity | cbn in Hg; lia].
  - destruct g as [| b g].
    + apply word_bytes_zero.
    + cbn [le_word word_bytes length app Nat.sub]. cbn [length] in Hg.
      pose proof (byte_val_range b) as Hb.
      replace ((byte_val b + 256 * le_word g) mod 256) with (byte_val b).
      2:{ rewrite (Z.mul_comm 256 (le_word g)), Z.mod_add by lia.
          symmetry. now apply Z.mod_small. }
      replace ((byte_val b + 256 * le_word g) / 256) with (le_word g).
      2:{ rewrite (Z.mul_comm 256 (le_word g)), Z.div_add by lia.
          rewrite (Z.div_small (byte_val b)) by lia. lia. }
      rewrite byte_of_Z_val, IH by lia. reflexivity.
Qed.

Lemma unpack_chunks (k : nat) : forall l : list byte,
  (0 < k)%nat ->
  take (length l) (concat (map (fun g => word_bytes k (le_word g)) (chunks k l))) = l.
Proof.
  intros l Hk. remember (length l) as n eqn:Hn. revert l Hn.
  induction n as [n IH] using lt_wf_ind. intros l Hn.
  destruct l as [| x l]; [subst n; reflexivity |].
  rewrite chunks_step by (lia || congruence). cbn [map concat].
  rewrite word_bytes_le_word by (rewrite length_take; lia).
  destruct (Nat.le_gt_cases k (length (x :: l))) as [Hfull | Hshort].
  - assert (Hlen : length (take k (x :: l)) = k) by (rewrite length_take; lia).
    rewrite Hlen, Nat.sub_diag. cbn [replicate]. rewrite app_nil_r.
    assert (Hlt : (length (drop k (x :: l)) < n)%nat) by (rewrite length_drop; lia).
    replace n with (length (take k (x :: l)) + length (drop k (x :: l)))%nat
      by (rewrite Hlen, length_drop; lia).
    rewrite take_app_add, (IH _ Hlt (drop k (x :: l)) eq_refl).
    apply take_drop.
  - rewrite (take_ge (x :: l) k) by lia.
    rewrite <- app_assoc, Hn. apply take_app_length.
Qed.

Lemma map_value_expected (k : nat) (gs : list (list byte)) :
  map value (imap (expected_emission k) gs) = map le_word gs.
Proof.
  apply list_eq. intros i.
  rewrite !list_lookup_fmap, list_lookup_imap.
  destruct (gs !! i); reflexivity.
Qed.

(** ** Element count *)

(** Where [file_size + (bitsize/8 - 1)] stays below [2^32], [array_size]
    is the ceiling of [file_size / (bitsize/8)], the number of elements
    the loop writes. *)
Lemma array_size_ceil w L :
  valid_bitsize w = true -> 0 <= L -> L + (w / 8 - 1) < 2 ^ 32 ->
  array_size w L = ceil_div L (w / 8).
Proof.
  intros H HL Hfit. unfold array_size, ceil_div.
  destruct (valid_bitsize_cases w H) as [-> | [-> | ->]].
  - change (Z.shiftr 8 3) with 1. change (8 / 8) with 1 in *.
    change (uint32 (1 - 1)) with 0. rewrite uint32_small by lia.
    Z.div_mod_to_equations; lia.
  - change (Z.shiftr 16 3) with 2. change (16 / 8) with 2 in *.
    change (uint32 (2 - 1)) with 1. rewrite uint32_small by lia.
    Z.div_mod_to_equations; lia.
  - change (Z.shiftr 32 3) with 4. change (32 / 8) with 4 in *.
    change (uint32 (4 - 1)) with 3. rewrite uint32_small by lia.
    Z.div_mod_to_equations; lia.
Qed.

Lemma array_size_pack w buf :
  valid_bitsize w = true ->
  Z.of_nat (length buf) + (w / 8 - 1) < 2 ^ 32 ->
  array_size w (Z.of_nat (length buf)) = Z.of_nat (length (pack w buf)).
Proof.
  intros H Hfit. rewrite pack_length by assumption.
  apply array_size_ceil; [assumption | lia | assumption].
Qed.

(** C1. The claim: for every width in {8,16,32} and every buffer length
    [L >= 0] the element count written between the brackets, and the size
    constant, equal [ceil(L / (w/8))].  The count is computed in 32-bit
    unsigned arithmetic: for a buffer of 4294967295 bytes and 16-bit words
    the sum [file_size + 1] wraps to 0 and the count written is 0, where
    the ceiling (and the number of elements the loop writes) is
    2147483648. *)
Theorem array_size_wraps_at_uint_max :
  array_size 16 4294967295 = 0
  /\ ceil_div 4294967295 (16 / 8) = 2147483648
  /\ array_head false 16 "big" (array_size 16 4294967295)
     = "const uint16_t big[0] = {"%string
  /\ size_declaration false "big" (array_size 16 4294967295)
     = ("const unsigned int big_size = 0;" +:+ nl)%string.
Proof. repeat split; reflexivity. Qed.

(** ** Words *)

(** C2. For a width in {8,16,32}, the [j]-th emitted word is the
    little-endian value of the [w/8] bytes from index [j * (w/8)] on (the
    first byte in the least significant bits), bytes missing behind the
    end of the input counting as zero; there is one word for every group,
    the short last one included; every word is printed as [0x] followed
    by exactly [w/4] hexadecimal digits.  The bytes 01 02 03 at width 16
    give 0x0201 and 0x0003. *)
Theorem words_are_little_endian_groups w buf j e :
  valid_bitsize w = true ->
  pack w buf !! j = Some e ->
  value e = le_sum buf (j * bytes_per_word w) (bytes_per_word w)
  /\ String.length (print_word w (value e)) = (2 + Z.to_nat (w / 4))%nat
  /\ Z.of_nat (length (pack w buf)) = ceil_div (Z.of_nat (length buf)) (w / 8)
  /\ map (fun e' => print_word 16 (value e')) (pack 16 [x01; x02; x03])
     = ["0x0201"; "0x0003"]%string.
Proof.
  intros H He. pose proof (pack_lookup w buf j e H He) as ->.
  cbn [value expected_emission].
  split; [apply le_word_take_drop |].
  split; [| split; [now apply pack_length | reflexivity]].
  apply print_word_length; [assumption |].
  pose proof (le_word_range (take (bytes_per_word w) (drop (j * bytes_per_word w) buf))) as Hr.
  split; [lia |]. apply Z.lt_le_trans with (1 := proj2 Hr).
  apply Z.pow_le_mono_r; [lia |].
  rewrite length_take.
  destruct (valid_bitsize_cases w H) as [-> | [-> | ->]];
    [ change (bytes_per_word 8) with 1%nat in *
    | change (bytes_per_word 16) with 2%nat in *
    | change (bytes_per_word 32) with 4%nat in * ]; lia.
Qed.

Lemma words_are_little_endian_groups_witness :
  value (Emission true false 3) = le_sum [x01; x02; x03] (1 * bytes_per_word 16) (bytes_per_word 16)
  /\ String.length (print_word 16 (value (Emission true false 3))) = (2 + Z.to_nat (16 / 4))%nat
  /\ Z.of_nat (length (pack 16 [x01; x02; x03])) = ceil_div (Z.of_nat (length [x01; x02; x03])) (16 / 8)
  /\ map (fun e' => print_word 16 (value e')) (pack 16 [x01; x02; x03])
     = ["0x0201"; "0x0003"]%string.
Proof.
  apply (words_are_little_endian_groups 16 [x01; x02; x03] 1 (Emission true false 3));
    reflexivity.
Defined.

(** C3. Round trip: for a width in {8,16,32}, splitting every emitted
    word into its [w/8] bytes, least significant first, and keeping the
    first [L] bytes gives back the [L] bytes of the input. *)
Theorem unpack_pack w buf :
  valid_bitsize w = true ->
  unpack w (length buf) (map value (pack w buf)) = buf.
Proof.
  intros H. unfold unpack.
  rewrite (pack_valid w buf H), map_value_expected, map_map.
  apply unpack_chunks. now apply bytes_per_word_pos.
Qed.

Lemma unpack_pack_witness :
  unpack 16 (length [x01; x02; x03]) (map value (pack 16 [x01; x02; x03])) = [x01; x02; x03].
Proof. apply (unpack_pack 16 [x01; x02; x03]). reflexivity. Defined.

(** ** Line breaks *)

Lemma row_interval (k j : nat) :
  k = 1%nat \/ k = 2%nat \/ k = 4%nat ->
  (Z.of_nat (j * k) mod 16 =? 0) = (Z.of_nat j mod (16 / Z.of_nat k) =? 0).
Proof.
  intros [-> | [-> | ->]];
    [ change (16 / Z.of_nat 1) with 16
    | change (16 / Z.of_nat 2) with 8
    | change (16 / Z.of_nat 4) with 4 ];
    rewrite Nat2Z.inj_mul;
    [ change (Z.of_nat 1) with 1 | change (Z.of_nat 2) with 2 | change (Z.of_nat 4) with 4 ];
    match goal with
    | |- (?a =? 0) = (?b =? 0) =>
        destruct (Z.eqb_spec a 0) as [Ha | Ha]; destruct (Z.eqb_spec b 0) as [Hb | Hb];
        try reflexivity; exfalso; revert Ha Hb; Z.div_mod_to_equations; lia
    end.
Qed.

(** C4. For a width in {8,16,32}, the line break and indent are written
    before the [j]-th word exactly when the number of bytes consumed
    before it, [j * (w/8)], is a multiple of 16, that is when [j] is a
    multiple of [16 / (w/8)]; the first word always starts a line.  The
    text of the element is the separator (none before the first), the
    break if any, and the word. *)
Theorem line_break_every_16_bytes w buf j e :
  valid_bitsize w = true ->
  pack w buf !! j = Some e ->
  newline e = (Z.of_nat (j * bytes_per_word w) mod 16 =? 0)
  /\ newline e = (Z.of_nat j mod (16 / (w / 8)) =? 0)
  /\ (j = 0%nat -> newline e = true)
  /\ render w e =
       ((if (j =? 0)%nat then "" else ", ") +:+
        (if (Z.of_nat (j * bytes_per_word w) mod 16 =? 0)%Z
         then String "010" (String "009" EmptyString) else "") +:+
        print_word w (value e))%string.
Proof.
  intros H He. pose proof (pack_lookup w buf j e H He) as ->.
  unfold render. cbn [newline comma value expected_emission].
  split; [reflexivity |]. split; [| split].
  - destruct (valid_bitsize_cases w H) as [-> | [-> | ->]];
      [ change (bytes_per_word 8) with 1%nat; change (8 / 8) with (Z.of_nat 1)
      | change (bytes_per_word 16) with 2%nat; change (16 / 8) with (Z.of_nat 2)
      | change (bytes_per_word 32) with 4%nat; change (32 / 8) with (Z.of_nat 4) ];
      apply row_interval; auto.
  - intros ->. reflexivity.
  - destruct (j =? 0)%nat; reflexivity.
Qed.

Lemma line_break_every_16_bytes_witness :
  newline (Emission true true 0) = (Z.of_nat (4 * bytes_per_word 32) mod 16 =? 0)
  /\ newline (Emission true true 0) = (Z.of_nat 4 mod (16 / (32 / 8)) =? 0)
  /\ (4%nat = 0%nat -> newline (Emission true true 0) = true)
  /\ render 32 (Emission true true 0) =
       ((if (4 =? 0)%nat then "" else ", ") +:+
        (if (Z.of_nat (4 * bytes_per_word 32) mod 16 =? 0)%Z
         then String "010" (String "009" EmptyString) else "") +:+
        print_word 32 (value (Emission true true 0)))%string.
Proof.
  apply (line_break_every_16_bytes 32 (replicate 17 x00) 4 (Emission true true 0));
    reflexivity.
Defined.

(** ** The command line *)

Lemma parse_args_app : forall (n : nat) (pre more : list string) (c0 c : config),
  length pre = n ->
  parse_args pre c0 = Parsed c ->
  parse_args (pre ++ more) c0 = parse_args more c.
Proof.
  induction n as [n IH] using lt_wf_ind. intros pre more c0 c Hn Hp.
  destruct pre as [| a pre].
  - cbn in Hp. injection Hp as ->. reflexivity.
  - assert (IH1 : forall c1, parse_args pre c1 = Parsed c ->
                             parse_args (pre ++ more) c1 = parse_args more c).
    { intros c1 H1. apply (IH (length pre)); [subst n; cbn; lia | reflexivity | exact H1]. }
    assert (IH2 : forall v pre' c1, pre = v :: pre' -> parse_args pre' c1 = Parsed c ->
                                    parse_args (pre' ++ more) c1 = parse_args more c).
    { intros v pre' c1 -> H1.
      apply (IH (length pre')); [subst n; cbn; lia | reflexivity | exact H1]. }
    cbn [parse_args app] in *.
    repeat match type of Hp with
           | (if ?b then _ else _) = _ => destruct b
           | (let _ := _ in _) = _ => cbv zeta in Hp |- *
           | match ?l with [] => _ | _ :: _ => _ end = _ =>
               destruct l as [| v pre'] eqn:Epre; cbn [app] in *
           | match ?o with Some _ => _ | None => _ end = _ => destruct o
           | Stopped _ = Parsed _ => discriminate Hp
           end;
      first [ now apply IH1 | now eapply IH2 | discriminate Hp ].
Qed.

(** The width is 8, 16 or 32 whenever the arguments are accepted: the
    assertions of lines 531 and 543 hold. *)
Lemma parse_args_valid_width : forall (n : nat) (args : list string) (c0 c : config),
  length args = n ->
  valid_bitsize (bitsize c0) = true ->
  parse_args args c0 = Parsed c ->
  valid_bitsize (bitsize c) = true.
Proof.
  induction n as [n IH] using lt_wf_ind. intros args c0 c Hn Hv Hp.
  destruct args as [| a args].
  - cbn in Hp. injection Hp as <-. exact Hv.
  - assert (IH1 : forall c1, valid_bitsize (bitsize c1) = true ->
                             parse_args args c1 = Parsed c -> valid_bitsize (bitsize c) = true).
    { intros c1 E H1.
      apply (IH (length args) ltac:(subst n; cbn; lia) args c1 c eq_refl E H1). }
    assert (IH2 : forall v args' c1, args = v :: args' -> valid_bitsize (bitsize c1) = true ->
                   parse_args args' c1 = Parsed c -> valid_bitsize (bitsize c) = true).
    { intros v args' c1 -> E H1.
      apply (IH (length args') ltac:(subst n; cbn; lia) args' c1 c eq_refl E H1). }
    cbn [parse_args] in Hp.
    repeat match type of Hp with
           | (if valid_bitsize ?x then _ else _) = _ => destruct (valid_bitsize x) eqn:?
           | (if ?b then _ else _) = _ => destruct b
           | (let _ := _ in _) = _ => cbv zeta in Hp
           | match ?l with [] => _ | _ :: _ => _ end = _ =>
               destruct l as [| v args'] eqn:Eargs
           | match ?o with Some _ => _ | None => _ end = _ => destruct o
           | Stopped _ = Parsed _ => discriminate Hp
           end;
      first [ discriminate Hp
            | now (eapply IH1; [| exact Hp])
            | now (eapply IH2; [reflexivity | | exact Hp]) ].
Qed.

(** A failure while the arguments are read ends the process with status
    1 and leaves the files as they were. *)
Lemma parse_failure_leaves_files prog a args f w :
  parse_args (a :: args) config_init = Stopped f ->
  main (prog :: a :: args) w = Exit 1 (diagnostic f) w.
Proof. intros H. unfold main. now rewrite H. Qed.

Lemma parse_bits_rejected a rest c n :
  requested_width a rest = Some n -> valid_bitsize n = false ->
  parse_args (a :: rest) c = Stopped (Fatal bits_error).
Proof.
  unfold requested_width, bits_offset. intros Hreq Hbad.
  destruct (is_bits_option a) eqn:Hopt; [| discriminate].
  assert (Hdash : Ascii.eqb (char_at a 0) "-" = true).
  { unfold is_bits_option in Hopt. destruct a as [| c0 a]; [discriminate |].
    cbn in Hopt |- *. destruct (Ascii.eqb c0 "-"); [reflexivity | discriminate]. }
  assert (Hna : strcmp_eq a "-a" || strcmp_eq a "--append" = false).
  { unfold strcmp_eq. destruct (String.eqb_spec a "-a") as [-> | _]; [discriminate |].
    destruct (String.eqb_spec a "--append") as [-> | _]; [discriminate | reflexivity]. }
  cbn [parse_args]. rewrite Hdash, Hna, Hopt. cbv zeta.
  destruct (isdigit (char_at a (if Ascii.eqb (char_at a 1) "-" then 6%nat else 2%nat))).
  - injection Hreq as <-. now rewrite Hbad.
  - destruct rest as [| v rest']; [discriminate |].
    destruct (Ascii.eqb (char_at a (if Ascii.eqb (char_at a 1) "-" then 6%nat else 2%nat)) NUL);
      [| discriminate].
    injection Hreq as <-. now rewrite Hbad.
Qed.

Lemma parse_bits_accepted a rest c n :
  requested_width a rest = Some n ->
  valid_bitsize n = true ->
  parse_args (a :: rest) c
  = parse_args (if isdigit (char_at a (bits_offset a)) then rest else tail rest)
      (set_bitsize n c).
Proof.
  unfold requested_width, bits_offset. intros Hreq Hok.
  destruct (is_bits_option a) eqn:Hopt; [| discriminate].
  assert (Hdash : Ascii.eqb (char_at a 0) "-" = true).
  { unfold is_bits_option in Hopt. destruct a as [| c0 a]; [discriminate |].
    cbn in Hopt |- *. destruct (Ascii.eqb c0 "-"); [reflexivity | discriminate]. }
  assert (Hna : strcmp_eq a "-a" || strcmp_eq a "--append" = false).
  { unfold strcmp_eq. destruct (String.eqb_spec a "-a") as [-> | _]; [discriminate |].
    destruct (String.eqb_spec a "--append") as [-> | _]; [discriminate | reflexivity]. }
  cbn [parse_args]. rewrite Hdash, Hna, Hopt. cbv zeta.
  destruct (isdigit (char_at a (if Ascii.eqb (char_at a 1) "-" then 6%nat else 2%nat))).
  - injection Hreq as <-. now rewrite Hok.
  - destruct rest as [| v rest']; [discriminate |].
    destruct (Ascii.eqb (char_at a (if Ascii.eqb (char_at a 1) "-" then 6%nat else 2%nat)) NUL);
      [| discriminate].
    injection Hreq as <-. now rewrite Hok.
Qed.

(** A width that the test of line 384 rejects ends the process with
    status 1 and the bit-size diagnostic while the arguments are read: the
    files are what they were. *)
Lemma rejected_width_stops prog pre a rest c n w :
  parse_args pre config_init = Parsed c ->
  requested_width a rest = Some n ->
  valid_bitsize n = false ->
  main (prog :: pre ++ a :: rest) w
  = Exit 1 ("ERROR: Invalid bit size (must be 8, 16 or 32)." +:+ nl) w.
Proof.
  intros Hpre Hreq Hbad. unfold main.
  assert (Hp : parse_args (pre ++ a :: rest) config_init = Stopped (Fatal bits_error)).
  { rewrite (parse_args_app (length pre) pre (a :: rest) config_init c eq_refl Hpre).
    now apply (parse_bits_rejected a rest c n). }
  destruct (pre ++ a :: rest) as [| x l] eqn:E.
  - destruct pre; discriminate E.
  - rewrite Hp. reflexivity.
Qed.

(** *** The number behind [-b]/[--bits] *)

Lemma uint32_int32 z : uint32 (int32 z) = uint32 z.
Proof. unfold uint32, int32. Z.div_mod_to_equations. lia. Qed.

Lemma isdigit_code c : isdigit c = true -> 48 <= char_code c <= 57.
Proof. unfold isdigit. intros H. apply andb_true_iff in H as [H1 H2]. lia. Qed.

Lemma numeral_digits_value : forall (s : string) (acc v : Z),
  numeral_digits s acc = Some v -> digits_value s acc = v.
Proof.
  induction s as [| c r IH]; intros acc v H; cbn [numeral_digits digits_value] in *.
  - congruence.
  - destruct (isdigit c); [now apply IH | discriminate].
Qed.

Lemma numeral_digits_lower : forall (s : string) (acc v : Z),
  0 <= acc -> numeral_digits s acc = Some v -> 0 <= v.
Proof.
  induction s as [| c r IH]; intros acc v Hacc H; cbn [numeral_digits] in H.
  - injection H as <-. exact Hacc.
  - destruct (isdigit c) eqn:Hd; [| discriminate].
    apply isdigit_code in Hd. apply (IH (10 * acc + (char_code c - 48))); [lia | exact H].
Qed.

(** On a numeral [strtol] gives its value, or [LONG_MAX] when that is
    greater; [atoi] and the assignment to [bitsize] keep the low 32 bits. *)
Lemma strtol_numeral d v : numeral_value d = Some v -> strtol d = Z.min LONG_MAX v.
Proof.
  destruct d as [| c r]; [discriminate |]. cbn [numeral_value]. intros H.
  pose proof (numeral_digits_lower _ _ _ (Z.le_refl 0) H) as Hpos.
  pose proof (numeral_digits_value _ _ _ H) as Hv.
  assert (Hd : isdigit c = true).
  { cbn [numeral_digits] in H. destruct (isdigit c); [reflexivity | discriminate]. }
  assert (Hs : strtol (String c r)
               = Z.max LONG_MIN (Z.min LONG_MAX (digits_value (String c r) 0))).
  { destruct c as [[] [] [] [] [] [] [] []]; try discriminate Hd; reflexivity. }
  rewrite Hs, Hv. unfold LONG_MIN, LONG_MAX. lia.
Qed.

Lemma atoi_numeral d v :
  numeral_value d = Some v -> uint32 (atoi d) = uint32 (Z.min LONG_MAX v).
Proof. intros H. unfold atoi. now rewrite uint32_int32, (strtol_numeral d v H). Qed.

Lemma numeral_starts_with_digit d v :
  numeral_value d = Some v -> isdigit (char_at d 0) = true.
Proof.
  destruct d as [| c r]; [discriminate |]. cbn [numeral_value numeral_digits].
  intros H. cbn. destruct (isdigit c); [reflexivity | discriminate].
Qed.

Lemma requested_width_numeral d v rest args :
  numeral_value d = Some v ->
  In args (bits_spellings d rest) ->
  exists a rest0,
    args = a :: rest0
    /\ requested_width a rest0 = Some (uint32 (Z.min LONG_MAX v))
    /\ (if isdigit (char_at a (bits_offset a)) then rest0 else tail rest0) = rest.
Proof.
  intros Hd Hin. pose proof (numeral_starts_with_digit d v Hd) as Hdig.
  pose proof (atoi_numeral d v Hd) as Hat.
  unfold bits_spellings in Hin. cbn [In] in Hin.
  destruct Hin as [<- | [<- | [<- | [<- | []]]]].
  - exists ("-b" +:+ d)%string, rest. split; [reflexivity |].
    assert (E : ("-b" +:+ d)%string = String "-" (String "b" d)) by reflexivity.
    rewrite !E. clear E.
    unfold requested_width, bits_offset, is_bits_option.
    cbn [strncmp_eq char_at String.get Ascii.eqb Bool.eqb andb orb string_from].
    change (char_at (String "-" (String "b" d)) 2) with (char_at d 0).
    rewrite Hdig, Hat. split; reflexivity.
  - exists ("--bits" +:+ d)%string, rest. split; [reflexivity |].
    assert (E : ("--bits" +:+ d)%string
                = String "-" (String "-" (String "b" (String "i" (String "t" (String "s" d))))))
      by reflexivity.
    rewrite !E. clear E.
    unfold requested_width, bits_offset, is_bits_option.
    cbn [strncmp_eq char_at String.get Ascii.eqb Bool.eqb andb orb string_from].
    change (char_at (String "-" (String "-" (String "b" (String "i" (String "t" (String "s" d)))))) 6)
      with (char_at d 0).
    rewrite Hdig, Hat. split; reflexivity.
  - exists "-b"%string, (d :: rest). split; [reflexivity |].
    unfold requested_width. cbn. rewrite Hat. split; reflexivity.
  - exists "--bits"%string, (d :: rest). split; [reflexivity |].
    unfold requested_width. cbn. rewrite Hat. split; reflexivity.
Qed.

(** C6. The claim: a command line that specifies a width other than 8,
    16 and 32 ends with a fatal error while the arguments are read, before
    any file is opened.  The number is read by [atoi] and stored in
    [unsigned int bitsize] with no check of its range: 4294967304, which is
    [2^32 + 8], is stored as 8 and passes the test of line 384.  The run
    [bin2c in.bin --bits 4294967304] ends with status 0 and writes the file
    that [--bits 8] writes. *)
Theorem wrapped_width_is_accepted :
  numeral_value "4294967304" = Some 4294967304
  /\ valid_bitsize 4294967304 = false
  /\ (forall rest c,
        parse_args ("--bits" :: "4294967304" :: rest)%string c
        = parse_args rest (set_bitsize 8 c))
  /\ main ["bin2c"; "in.bin"; "--bits"; "4294967304"]%string example_world
     = main ["bin2c"; "in.bin"; "--bits"; "8"]%string example_world
  /\ exit_status (main ["bin2c"; "in.bin"; "--bits"; "4294967304"]%string example_world)
     = Some 0
  /\ file_text (main ["bin2c"; "in.bin"; "--bits"; "4294967304"]%string example_world) "in.h"
     = Some ("/* generated by Bin2C */" +:+ nl +:+ "#include <stdint.h>" +:+ nl +:+ nl +:+
             "const uint8_t in[3] = {" +:+ nl +:+
             String "009" "0x01, 0x02, 0x03" +:+ nl +:+
             "};" +:+ nl +:+ nl +:+
             "const unsigned int in_size = 3;" +:+ nl)%string.
Proof.
  split; [reflexivity |]. split; [reflexivity |]. split; [reflexivity |].
  split; [reflexivity |]. split; vm_compute; reflexivity.
Qed.

Lemma parse_args_keeps_width : forall (n : nat) (args : list string) (c0 c : config),
  length args = n ->
  Forall (fun a => is_bits_option a = false) args ->
  parse_args args c0 = Parsed c ->
  bitsize c = bitsize c0.
Proof.
  induction n as [n IH] using lt_wf_ind. intros args c0 c Hn Hall Hp.
  destruct args as [| a args].
  - cbn in Hp. injection Hp as ->. reflexivity.
  - apply Forall_cons in Hall as [Ha Hall].
    assert (IH1 : forall c1, bitsize c1 = bitsize c0 ->
                             parse_args args c1 = Parsed c -> bitsize c = bitsize c0).
    { intros c1 E H1. rewrite <- E.
      apply (IH (length args) ltac:(subst n; cbn; lia) args c1 c eq_refl Hall H1). }
    assert (IH2 : forall v args' c1, args = v :: args' -> bitsize c1 = bitsize c0 ->
                                     parse_args args' c1 = Parsed c -> bitsize c = bitsize c0).
    { intros v args' c1 -> E H1. rewrite <- E. apply Forall_cons in Hall as [_ Hall'].
      apply (IH (length args') ltac:(subst n; cbn; lia) args' c1 c eq_refl Hall' H1). }
    cbn [parse_args] in Hp. rewrite Ha in Hp.
    repeat match type of Hp with
           | (if ?b then _ else _) = _ => destruct b
           | match ?l with [] => _ | _ :: _ => _ end = _ =>
               destruct l as [| v args'] eqn:Eargs
           | match ?o with Some _ => _ | None => _ end = _ => destruct o
           | Stopped _ = Parsed _ => discriminate Hp
           end;
      first [ discriminate Hp
            | now (eapply IH1; [| exact Hp])
            | now (eapply IH2; [reflexivity | | exact Hp]) ].
Qed.

Lemma chunks_singletons (buf : list byte) : chunks 1 buf = map (fun b => [b]) buf.
Proof.
  induction buf as [| b buf IH]; [reflexivity |].
  rewrite chunks_step by (lia || congruence).
  cbn [take drop map]. now rewrite take_0, drop_0, IH.
Qed.

Lemma print_byte (b : byte) : print_word 8 (byte_val b) = ("0x" +:+ two_hex (byte_val b))%string.
Proof. destruct b; reflexivity. Qed.

(** C10. When no argument of the command line is a [-b]/[--bits]
    option and the arguments are accepted, the width is 8, and every byte
    of the input is written as one element: [0x] and its two hexadecimal
    digits. *)
Theorem default_width_is_8 args c buf :
  Forall (fun a => is_bits_option a = false) args ->
  parse_args args config_init = Parsed c ->
  bitsize c = 8
  /\ map (fun e => print_word (bitsize c) (value e)) (pack (bitsize c) buf)
     = map (fun b => ("0x" +:+ two_hex (byte_val b))%string) buf.
Proof.
  intros Hall Hp.
  assert (H8 : bitsize c = 8)
    by exact (parse_args_keeps_width (length args) args config_init c eq_refl Hall Hp).
  split; [exact H8 |]. rewrite H8.
  rewrite (pack_valid 8 buf eq_refl). change (bytes_per_word 8) with 1%nat.
  rewrite chunks_singletons.
  apply list_eq. intros i.
  rewrite !list_lookup_fmap, list_lookup_imap, list_lookup_fmap.
  destruct (buf !! i) as [b |]; [| reflexivity].
  cbn [fmap option_fmap option_map value expected_emission le_word].
  rewrite Z.mul_0_r, Z.add_0_r. f_equal. apply print_byte.
Qed.

Lemma default_width_is_8_witness :
  bitsize (set_macro (set_inputname "in.bin" config_init)) = 8
  /\ map (fun e => print_word (bitsize (set_macro (set_inputname "in.bin" config_init))) (value e))
       (pack (bitsize (set_macro (set_inputname "in.bin" config_init))) [x01; xab])
     = map (fun b => ("0x" +:+ two_hex (byte_val b))%string) [x01; xab].
Proof.
  apply (default_width_is_8 ["in.bin"; "-d"]%string).
  - repeat constructor.
  - reflexivity.
Defined.

(** C5. The claim: an argument that starts with [-] and is none of the
    options is a fatal error, status 1 and a diagnostic, no output.  The
    chain of tests in the loop has no last [else]: such an argument is
    skipped.  With [-x] after the input file the run ends with status 0
    and writes the same output file as without it. *)
Theorem unknown_flag_is_skipped :
  (forall rest c, parse_args ("-x"%string :: rest) c = parse_args rest c)
  /\ exit_status (main ["bin2c"; "in.bin"; "-x"]%string example_world) = Some 0
  /\ file_text (main ["bin2c"; "in.bin"; "-x"]%string example_world) "in.h"
     = file_text (main ["bin2c"; "in.bin"]%string example_world) "in.h"
  /\ file_text (main ["bin2c"; "in.bin"; "-x"]%string example_world) "in.h"
     = Some ("/* generated by Bin2C */" +:+ nl +:+ "#include <stdint.h>" +:+ nl +:+ nl +:+
             "const uint8_t in[3] = {" +:+ nl +:+
             String "009" "0x01, 0x02, 0x03" +:+ nl +:+
             "};" +:+ nl +:+ nl +:+
             "const unsigned int in_size = 3;" +:+ nl)%string.
Proof.
  split; [reflexivity |]. split; [reflexivity |]. split; vm_compute; reflexivity.
Qed.

(** ** Reading the input *)

Lemma load_zero_terminated contents :
  Z.of_nat (length contents) + 1 < 2 ^ 32 ->
  load_size true contents = Z.of_nat (length contents) + 1
  /\ load_buffer true contents = contents ++ [x00].
Proof.
  intros Hfit.
  assert (Hs : load_size true contents = Z.of_nat (length contents) + 1).
  { unfold load_size, file_size_of.
    rewrite (uint32_small (Z.of_nat (length contents))) by lia.
    apply uint32_small. lia. }
  split; [exact Hs |]. unfold load_buffer. rewrite Hs.
  replace (Z.to_nat (Z.of_nat (length contents) + 1)) with (length contents + 1)%nat by lia.
  rewrite take_app_add. f_equal.
  rewrite Nat.add_comm. reflexivity.
Qed.

Lemma load_plain contents :
  Z.of_nat (length contents) < 2 ^ 32 ->
  load_size false contents = Z.of_nat (length contents)
  /\ load_buffer false contents = contents.
Proof.
  intros Hfit.
  assert (Hs : load_size false contents = Z.of_nat (length contents)).
  { unfold load_size, file_size_of. apply uint32_small. lia. }
  split; [exact Hs |]. unfold load_buffer. rewrite Hs, Nat2Z.id.
  apply take_app_length.
Qed.

(** Where [file_size + 1] does not wrap, the buffer with
    [zero_terminate] is the contents of the file followed by exactly one
    zero byte and [file_size] is one more than the length of the file;
    without the flag the buffer is the contents.  [--zero] and [-z] set the
    flag.  An empty file with [--zero] at the default width gives the
    single element 0x00 and size 1. *)
Lemma zero_terminator_appended contents :
  Z.of_nat (length contents) + 1 < 2 ^ 32 ->
  load_buffer true contents = contents ++ [x00]
  /\ load_size true contents = Z.of_nat (length contents) + 1
  /\ Z.of_nat (length (load_buffer true contents)) = Z.of_nat (length contents) + 1
  /\ load_buffer false contents = contents
  /\ (forall rest c, parse_args ("--zero"%string :: rest) c = parse_args rest (set_zero c))
  /\ (forall rest c, parse_args ("-z"%string :: rest) c = parse_args rest (set_zero c))
  /\ file_text (main ["bin2c"; "empty.bin"; "--zero"]%string example_world) "empty.h"
     = Some ("/* generated by Bin2C */" +:+ nl +:+ "#include <stdint.h>" +:+ nl +:+ nl +:+
             "const uint8_t empty[1] = {" +:+ nl +:+
             String "009" "0x00" +:+ nl +:+
             "};" +:+ nl +:+ nl +:+
             "const unsigned int empty_size = 1;" +:+ nl)%string.
Proof.
  intros Hfit. destruct (load_zero_terminated contents Hfit) as [Hs Hb].
  split; [exact Hb |]. split; [exact Hs |].
  split; [rewrite Hb, length_app; cbn [length]; lia |].
  split; [apply load_plain; lia |].
  split; [reflexivity |]. split; [reflexivity |].
  vm_compute. reflexivity.
Qed.

(** C7. The claim: with [zero_terminate] exactly one zero byte follows
    the contents of the file and the buffer is one byte longer.  The
    addition [file_size += 1] of line 490 is not checked.  A file of
    4294967295 bytes ([big_file]) is read whole without [-z]; with [-z]
    the sum wraps to 0 and the buffer is empty: no zero byte follows the
    contents, and the declaration written for [bin2c big.bin -z] has no
    element and size 0, so the contents are lost as well. *)
Theorem zero_terminator_lost_at_uint_max :
  Z.of_nat (length big_file) = 4294967295
  /\ file_size_of true 4294967295 = 0
  /\ load_size true big_file = 0
  /\ load_buffer true big_file = []
  /\ load_buffer true big_file <> big_file ++ [x00]
  /\ load_size false big_file = 4294967295
  /\ load_buffer false big_file = big_file
  /\ parse_args ["big.bin"; "-z"]%string config_init
     = Parsed (set_zero (set_inputname "big.bin" config_init))
  /\ output_text (set_zero (set_inputname "big.bin" config_init)) "big"
       (load_size true big_file) (load_buffer true big_file)
     = ("/* generated by Bin2C */" +:+ nl +:+ "#include <stdint.h>" +:+ nl +:+ nl +:+
        "const uint8_t big[0] = {" +:+ nl +:+
        "};" +:+ nl +:+ nl +:+
        "const unsigned int big_size = 0;" +:+ nl)%string.
Proof.
  assert (Hlen : Z.of_nat (length big_file) = 4294967295).
  { unfold big_file. rewrite length_replicate. apply Z2Nat.id. discriminate. }
  assert (Hsize : load_size true big_file = 0).
  { unfold load_size. rewrite Hlen. reflexivity. }
  assert (Hbuf : load_buffer true big_file = []).
  { unfold load_buffer. rewrite Hsize. reflexivity. }
  assert (Hplain : load_size false big_file = Z.of_nat (length big_file)
                   /\ load_buffer false big_file = big_file).
  { apply load_plain. rewrite Hlen. lia. }
  split; [exact Hlen |]. split; [reflexivity |]. split; [exact Hsize |].
  split; [exact Hbuf |].
  split.
  { rewrite Hbuf. intros E. symmetry in E. apply app_eq_nil in E as [_ E]. discriminate E. }
  split; [rewrite <- Hlen; apply Hplain |]. split; [apply Hplain |].
  split; [reflexivity |].
  rewrite Hsize, Hbuf. vm_compute. reflexivity.
Qed.

(** ** Symbol names *)

Lemma keep_first_not_NUL c :
  Ascii.eqb c NUL = false -> Ascii.eqb (keep_or_underscore (legal_first c) c) NUL = false.
Proof. intros H. unfold keep_or_underscore. now destruct (legal_first c). Qed.

Lemma keep_next_not_NUL c :
  Ascii.eqb c NUL = false -> Ascii.eqb (keep_or_underscore (legal_next c) c) NUL = false.
Proof. intros H. unfold keep_or_underscore. now destruct (legal_next c). Qed.

Lemma legal_first_next c : legal_first c = true -> legal_next c = true.
Proof.
  unfold legal_first, legal_next, isalnum. intros H.
  apply orb_true_iff in H as [H | H]; rewrite H; [reflexivity | apply orb_true_r].
Qed.

(** The second test leaves alone what the first test produced. *)
Lemma keep_next_keep_first c :
  keep_or_underscore (legal_next (keep_or_underscore (legal_first c) c))
    (keep_or_underscore (legal_first c) c)
  = keep_or_underscore (legal_first c) c.
Proof.
  unfold keep_or_underscore at 2 3 4. destruct (legal_first c) eqn:H.
  - now rewrite (legal_first_next c H).
  - reflexivity.
Qed.

Lemma sanitize_loop_chars (l : list ascii) :
  forallb (fun c => negb (Ascii.eqb c NUL)) l = true ->
  sanitize_loop (l ++ [NUL])
  = Some (map (fun c => keep_or_underscore (legal_next c) c) l ++ [NUL]).
Proof.
  induction l as [| c l IH]; intros H.
  - reflexivity.
  - cbn [forallb] in H. apply andb_true_iff in H as [Hc Hl].
    apply negb_true_iff in Hc.
    cbn [app sanitize_loop map]. rewrite Hc, (IH Hl). reflexivity.
Qed.

Lemma cstring_chars (l : list ascii) :
  forallb (fun c => negb (Ascii.eqb c NUL)) l = true ->
  cstring (l ++ [NUL]) = string_of_list_ascii l.
Proof.
  induction l as [| c l IH]; intros H.
  - reflexivity.
  - cbn [forallb] in H. apply andb_true_iff in H as [Hc Hl].
    apply negb_true_iff in Hc.
    cbn [app cstring string_of_list_ascii]. rewrite Hc, (IH Hl). reflexivity.
Qed.

Lemma replaced_chars_not_NUL (l : list ascii) :
  forallb (fun c => negb (Ascii.eqb c NUL)) l = true ->
  forallb (fun c => negb (Ascii.eqb c NUL))
    (map (fun c => keep_or_underscore (legal_next c) c) l) = true.
Proof.
  induction l as [| c l IH]; intros H; [reflexivity |].
  cbn [forallb map] in *. apply andb_true_iff in H as [Hc Hl].
  apply negb_true_iff in Hc.
  rewrite (keep_next_not_NUL c Hc), (IH Hl). reflexivity.
Qed.

Lemma has_NUL_chars (s : string) :
  has_NUL s = false ->
  forallb (fun c => negb (Ascii.eqb c NUL)) (list_ascii_of_string s) = true.
Proof.
  unfold has_NUL. induction (list_ascii_of_string s) as [| c l IH]; intros H; [reflexivity |].
  cbn [existsb forallb] in *. apply orb_false_iff in H as [Hc Hl].
  now rewrite Hc, (IH Hl).
Qed.

(** On a name with at least one character (and no NUL inside) the check
    replaces character by character, keeps the length and leaves a legal
    identifier as it is. *)
Lemma sanitize_name_nonempty (s : string) :
  s <> EmptyString -> has_NUL s = false ->
  sanitize_name s = Some (replace_illegal s)
  /\ String.length (replace_illegal s) = String.length s
  /\ (legal_identifier s = true -> replace_illegal s = s).
Proof.
  intros Hne Hnul. destruct s as [| c r]; [congruence |].
  pose proof (has_NUL_chars _ Hnul) as Hall.
  cbn [list_ascii_of_string forallb] in Hall.
  apply andb_true_iff in Hall as [Hc Hr]. apply negb_true_iff in Hc.
  split; [| split].
  - unfold sanitize_name, cbuffer, sanitize.
    cbn [list_ascii_of_string app].
    change (isalpha c || Ascii.eqb c "_") with (legal_first c).
    pose proof (sanitize_loop_chars
                  (keep_or_underscore (legal_first c) c :: list_ascii_of_string r)) as Hloop.
    cbn [app forallb map] in Hloop.
    rewrite Hloop by (rewrite (keep_first_not_NUL c Hc), Hr; reflexivity).
    cbn [option_map]. f_equal.
    rewrite keep_next_keep_first.
    pose proof (cstring_chars
                  (keep_or_underscore (legal_first c) c
                   :: map (fun d => keep_or_underscore (legal_next d) d)
                        (list_ascii_of_string r))) as Hcs.
    cbn [app forallb] in Hcs.
    rewrite Hcs by (rewrite (keep_first_not_NUL c Hc), (replaced_chars_not_NUL _ Hr); reflexivity).
    reflexivity.
  - cbn [replace_illegal String.length]. f_equal.
    rewrite <- (string_of_list_ascii_of_string r) at 2.
    generalize (list_ascii_of_string r). intros l.
    induction l as [| d l IH]; cbn; [reflexivity | now rewrite IH].
  - cbn [legal_identifier replace_illegal]. intros Hlegal.
    apply andb_true_iff in Hlegal as [Hf Hn].
    unfold keep_or_underscore at 1. rewrite Hf. f_equal.
    rewrite <- (string_of_list_ascii_of_string r) at 2. f_equal.
    revert Hn. generalize (list_ascii_of_string r). intros l.
    induction l as [| d l IH]; intros Hn; [reflexivity |].
    cbn [forallb map] in *. apply andb_true_iff in Hn as [Hd Hl].
    unfold keep_or_underscore at 1. rewrite Hd, (IH Hl). reflexivity.
Qed.

(** C8. The claim: the identifier check maps the characters one by one
    and never changes the length.  On the empty name (the label of a file
    such as [.profile], whose base name is empty) the first test of line
    473 replaces the terminator itself by an underscore and the loop then
    reads behind the written part of the block: nothing defined comes
    out, and whatever those bytes hold the name that results is not the
    empty name. *)
Theorem sanitize_empty_name_overruns :
  sanitize_name EmptyString = None
  /\ (forall behind,
        match sanitize (NUL :: behind) with
        | Some r => cstring r <> EmptyString
        | None => True
        end)
  /\ symbol_name None ".profile" = None
  /\ main ["bin2c"; ".profile"]%string example_world = Undefined.
Proof.
  split; [reflexivity |]. split; [| split; reflexivity].
  intros behind. cbn.
  destruct (sanitize_loop behind) as [r' |]; [| exact I].
  cbn. discriminate.
Qed.

(** The loop that skips the directory names ends within its fuel: no
    separator is left in what it returns. *)
Lemma strpbrk_sep_bound (s : string) (i : nat) :
  strpbrk_sep s = Some i -> (i < String.length s)%nat.
Proof.
  revert i. induction s as [| d s IH]; intros i H; [discriminate |].
  cbn [strpbrk_sep String.length] in *.
  destruct (is_separator d); [injection H as <-; lia |].
  destruct (strpbrk_sep s) as [j |]; [| discriminate].
  injection H as <-. specialize (IH j eq_refl). lia.
Qed.

Lemma string_from_length : forall (j : nat) (s : string),
  String.length (string_from j s) = (String.length s - j)%nat.
Proof.
  induction j as [| j IH]; intros s.
  - cbn. lia.
  - destruct s as [| d s]; [reflexivity |]. cbn [string_from String.length]. rewrite IH. lia.
Qed.

Lemma skip_dirs_loop_no_separator : forall (fuel : nat) (fpos : string),
  (String.length fpos <= fuel)%nat ->
  strpbrk_sep (skip_dirs_loop fuel fpos) = None.
Proof.
  induction fuel as [| fuel IH]; intros fpos Hlen.
  - destruct fpos; [reflexivity | cbn in Hlen; lia].
  - cbn [skip_dirs_loop]. destruct (strpbrk_sep fpos) as [i |] eqn:Hsep.
    + apply IH. rewrite string_from_length.
      apply strpbrk_sep_bound in Hsep. lia.
    + exact Hsep.
Qed.

Lemma skip_dirs_no_separator (inputname : string) :
  strpbrk_sep (skip_dirs inputname) = None.
Proof. apply skip_dirs_loop_no_separator. lia. Qed.

(** ** Default output file name *)

Lemma strrchr_absent (s : string) (c : ascii) :
  has_char c s = false -> strrchr s c = None.
Proof.
  unfold has_char. induction s as [| d s IH]; intros H; [reflexivity |].
  cbn [list_ascii_of_string existsb] in H. apply orb_false_iff in H as [Hd Hs].
  cbn [strrchr]. now rewrite (IH Hs), Hd.
Qed.

Lemma append_nil_l (s : string) : (EmptyString +:+ s)%string = s.
Proof. reflexivity. Qed.

Lemma append_cons (c : ascii) (s t : string) :
  (String c s +:+ t)%string = String c (s +:+ t).
Proof. reflexivity. Qed.

Lemma strrchr_last (stem ext : string) (c : ascii) :
  has_char c ext = false ->
  strrchr (stem +:+ String c ext) c = Some (String.length stem).
Proof.
  intros H. induction stem as [| d stem IH].
  - rewrite append_nil_l. cbn [strrchr String.length].
    now rewrite (strrchr_absent ext c H), Ascii.eqb_refl.
  - rewrite append_cons. cbn [strrchr String.length]. now rewrite IH.
Qed.

Lemma strpbrk_sep_has_separator (s : string) :
  strpbrk_sep s = None <-> has_separator s = false.
Proof.
  unfold has_separator. induction s as [| d s IH]; [easy |].
  cbn [strpbrk_sep list_ascii_of_string existsb].
  destruct (is_separator d); cbn [orb]; [easy |].
  destruct (strpbrk_sep s); cbn [option_map].
  - split; [discriminate |]. intros H. apply IH in H. discriminate.
  - split; [intros _; now apply IH | reflexivity].
Qed.

Lemma truncate_at_app (stem rest : string) :
  truncate_at (String.length stem) (stem +:+ rest) = stem.
Proof.
  unfold truncate_at. induction stem as [| d stem IH].
  - rewrite append_nil_l. destruct rest; reflexivity.
  - rewrite append_cons. cbn [String.length substring]. now rewrite IH.
Qed.

Lemma append_assoc (a b c : string) : ((a +:+ b) +:+ c = a +:+ (b +:+ c))%string.
Proof.
  induction a as [| d a IH]; [reflexivity |].
  rewrite !append_cons. now rewrite IH.
Qed.

(** C9, as the code has it.  For an input name [stem.ext] (where [ext]
    holds no dot) the default output name is [stem.h] when the name holds
    no slash or backslash, and [stem.ext.h] when it holds one: the
    extension is replaced only for a name without directory part.  A name
    without any dot gets [.h] appended. *)
Theorem default_output_name_by_case stem ext :
  has_char "." ext = false ->
  default_output_name (stem +:+ "." +:+ ext)
  = (if has_separator (stem +:+ "." +:+ ext)
     then stem +:+ "." +:+ ext +:+ ".h"
     else stem +:+ ".h")%string
  /\ default_output_name ext = (ext +:+ ".h")%string.
Proof.
  intros Hext. split.
  - unfold default_output_name.
    change ("." +:+ ext)%string with (String "." ext).
    rewrite (strrchr_last stem ext "." Hext).
    destruct (strpbrk_sep (stem +:+ String "." ext)) as [i |] eqn:Hsep.
    + destruct (has_separator (stem +:+ String "." ext)) eqn:Hhas.
      * rewrite append_assoc. reflexivity.
      * apply strpbrk_sep_has_separator in Hhas. congruence.
    + apply strpbrk_sep_has_separator in Hsep. rewrite Hsep.
      now rewrite truncate_at_app.
  - unfold default_output_name. now rewrite (strrchr_absent ext "." Hext).
Qed.

Lemma default_output_name_by_case_witness :
  default_output_name ("my_file" +:+ "." +:+ "dat")
  = (if has_separator ("my_file" +:+ "." +:+ "dat")
     then "my_file" +:+ "." +:+ "dat" +:+ ".h"
     else "my_file" +:+ ".h")%string
  /\ default_output_name "dat" = ("dat" +:+ ".h")%string.
Proof. apply (default_output_name_by_case "my_file" "dat"). reflexivity. Defined.

(** C9, as claimed, fails: for [dir/a.bin] the default output name is
    [dir/a.bin.h], the extension is not replaced. *)
Lemma default_output_name_in_directory :
  default_output_name "dir/a.bin" = "dir/a.bin.h"%string
  /\ default_output_name "dir/a.bin" <> "dir/a.h"%string.
Proof. split; [reflexivity | discriminate]. Qed.

(** * Further properties of the code *)

(** ** The packing loop: separators, accumulator, element range *)

(** X1. For a width in {8,16,32}, the separator [", "] is written before
    every element but the first: the element at position [j] carries a
    comma exactly when [j > 0], so [n] elements are separated by [n - 1]
    commas and the text never starts or ends with one. *)
Theorem comma_before_all_but_first w buf j e :
  valid_bitsize w = true ->
  pack w buf !! j = Some e ->
  comma e = negb (j =? 0)%nat
  /\ render w e =
       ((if (j =? 0)%nat then "" else ", ") +:+
        (if newline e then String "010" (String "009" EmptyString) else "") +:+
        print_word w (value e))%string.
Proof.
  intros H He. pose proof (pack_lookup w buf j e H He) as ->.
  unfold render. cbn [comma newline value expected_emission].
  split; [reflexivity |]. destruct (j =? 0)%nat; reflexivity.
Qed.

Lemma comma_before_all_but_first_witness :
  comma (Emission true false 2) = negb (1 =? 0)%nat
  /\ render 8 (Emission true false 2) =
       ((if (1 =? 0)%nat then "" else ", ") +:+
        (if newline (Emission true false 2)
         then String "010" (String "009" EmptyString) else "") +:+
        print_word 8 (value (Emission true false 2)))%string.
Proof.
  apply (comma_before_all_but_first 8 [x01; x02; x03] 1 (Emission true false 2));
    reflexivity.
Defined.

(** X2. For a width in {8,16,32}, every emitted value lies in
    [0, 2^w): it fits the element type [uint<w>_t] of the declaration. *)
Theorem elements_fit_element_type w buf j e :
  valid_bitsize w = true ->
  pack w buf !! j = Some e ->
  0 <= value e < 2 ^ w.
Proof.
  intros H He. pose proof (pack_lookup w buf j e H He) as ->.
  cbn [value expected_emission].
  pose proof (le_word_range (take (bytes_per_word w) (drop (j * bytes_per_word w) buf))) as Hr.
  split; [lia |]. apply Z.lt_le_trans with (1 := proj2 Hr).
  apply Z.pow_le_mono_r; [lia |]. rewrite length_take.
  destruct (valid_bitsize_cases w H) as [-> | [-> | ->]];
    [ change (bytes_per_word 8) with 1%nat
    | change (bytes_per_word 16) with 2%nat
    | change (bytes_per_word 32) with 4%nat ]; lia.
Qed.

Lemma elements_fit_element_type_witness :
  0 <= value (Emission false true 65535) < 2 ^ 16.
Proof.
  apply (elements_fit_element_type 16 [xff; xff; x01] 0 (Emission false true 65535));
    reflexivity.
Defined.

Lemma pack_loop_state (w : Z) (k : nat) :
  (0 < k)%nat -> w = 8 * Z.of_nat k -> w <= 32 ->
  forall (n : nat) (buf : list byte) (i : Z) (st : packer),
    length buf = n -> bits st = 0 -> word st = 0 ->
    bits (pack_loop w buf (uint32 i) st) = 8 * Z.of_nat (n mod k)
    /\ word (pack_loop w buf (uint32 i) st) = le_word (drop (n - n mod k) buf).
Proof.
  intros Hk Hw Hmax. induction n as [n IH] using lt_wf_ind.
  intros buf i st Hn Hb Hwd.
  destruct (Nat.le_gt_cases k n) as [Hfull | Hshort].
  - rewrite <- (take_drop k buf) at 1 2.
    assert (Hlen : length (take k buf) = k) by (rewrite length_take; lia).
    rewrite pack_loop_app, Hlen.
    rewrite (pack_loop_complete w (take k buf) i st Hb Hwd); [| | lia | lia].
    2:{ intros E. rewrite E in Hlen. cbn in Hlen. lia. }
    assert (Hlt : (n - k < n)%nat) by lia.
    destruct (IH (n - k)%nat Hlt (drop k buf) (i + Z.of_nat k)
                {| emitted := emit st (le_word (take k buf)); need_comma := true;
                   need_newline := (i + Z.of_nat k) mod 16 =? 0; word := 0; bits := 0 |}
                ltac:(rewrite length_drop; lia) eq_refl eq_refl) as [IHb IHw].
    assert (Hmod : ((n - k) mod k = n mod k)%nat).
    { replace n with ((n - k) + 1 * k)%nat at 2 by lia. now rewrite Nat.Div0.mod_add. }
    rewrite Hlen in *. rewrite IHb, IHw, Hmod, drop_drop. split; [reflexivity |].
    do 2 f_equal. pose proof (Nat.Div0.mod_le (n - k) k). lia.
  - rewrite Nat.mod_small by lia. rewrite Nat.sub_diag, drop_0.
    rewrite (pack_loop_partial w buf (uint32 i) st); cbn [bits word]; rewrite ?Hb, ?Hwd; lia.
Qed.

(** X3. For a width in {8,16,32}, after any number [n] of input bytes
    the accumulator holds [n mod (w/8)] bytes: [bits] is
    [8 * (n mod (w/8))], below [w], and [word] is the little-endian value
    of the bytes since the last emitted element, below [2^bits].  So
    [bits <= bitsize] holds after every [bits += 8] (the assertion of
    line 543), and no shift leaves the 32-bit accumulator. *)
Theorem accumulator_invariant w buf :
  valid_bitsize w = true ->
  let st := pack_loop w buf 0 packer_init in
  let r := (length buf mod bytes_per_word w)%nat in
  bits st = 8 * Z.of_nat r
  /\ bits st + 8 <= w
  /\ word st = le_word (drop (length buf - r) buf)
  /\ 0 <= word st < 2 ^ bits st.
Proof.
  intros H st r.
  assert (Hk : (0 < bytes_per_word w)%nat) by now apply bytes_per_word_pos.
  assert (Hw : w = 8 * Z.of_nat (bytes_per_word w) /\ w <= 32).
  { destruct (valid_bitsize_cases w H) as [-> | [-> | ->]];
      [ change (bytes_per_word 8) with 1%nat
      | change (bytes_per_word 16) with 2%nat
      | change (bytes_per_word 32) with 4%nat ]; lia. }
  destruct Hw as [Hw Hmax].
  destruct (pack_loop_state w (bytes_per_word w) Hk Hw Hmax (length buf) buf 0 packer_init
              eq_refl eq_refl eq_refl) as [Hb Hwd].
  change (uint32 0) with 0 in Hb, Hwd. fold st in Hb, Hwd. fold r in Hb, Hwd.
  assert (Hr : (r < bytes_per_word w)%nat) by (apply Nat.mod_upper_bound; lia).
  split; [exact Hb |]. split; [lia |]. split; [exact Hwd |].
  rewrite Hb, Hwd.
  pose proof (le_word_range (drop (length buf - r) buf)) as Hrange.
  rewrite length_drop in Hrange.
  replace (length buf - (length buf - r))%nat with r in Hrange; [exact Hrange |].
  pose proof (Nat.Div0.mod_le (length buf) (bytes_per_word w)). fold r in H0. lia.
Qed.

Lemma accumulator_invariant_witness :
  let st := pack_loop 32 [x01; x02; x03; x04; x05; x06] 0 packer_init in
  let r := (length [x01; x02; x03; x04; x05; x06] mod bytes_per_word 32)%nat in
  bits st = 8 * Z.of_nat r
  /\ bits st + 8 <= 32
  /\ word st = le_word (drop (length [x01; x02; x03; x04; x05; x06] - r)
                          [x01; x02; x03; x04; x05; x06])
  /\ 0 <= word st < 2 ^ bits st.
Proof. apply (accumulator_invariant 32 [x01; x02; x03; x04; x05; x06]). reflexivity. Defined.

(** ** The packing loop: composition, element count, literals *)

Lemma chunks_app {A} (k : nat) : forall (n : nat) (a b : list A),
  (0 < k)%nat -> length a = (n * k)%nat ->
  chunks k (a ++ b) = chunks k a ++ chunks k b.
Proof.
  induction n as [| n IH]; intros a b Hk Hlen.
  - destruct a; [reflexivity | discriminate].
  - assert (Ha : a <> []) by (intros ->; cbn in Hlen; lia).
    assert (Hab : a ++ b <> []) by (destruct a; [congruence | discriminate]).
    rewrite (chunks_step k (a ++ b) Hk Hab), (chunks_step k a Hk Ha).
    rewrite take_app_le, drop_app_le by lia.
    cbn [app]. f_equal. apply IH; [assumption |].
    rewrite length_drop. lia.
Qed.

(** X4. Packing composes at word boundaries: for a width in {8,16,32},
    when the length of [a] is a multiple of [w/8], the values emitted for
    [a ++ b] are those emitted for [a] followed by those emitted for
    [b]. *)
Theorem pack_values_app w a b :
  valid_bitsize w = true ->
  (length a mod bytes_per_word w = 0)%nat ->
  map value (pack w (a ++ b)) = map value (pack w a) ++ map value (pack w b).
Proof.
  intros H Hmod.
  assert (Hk : (0 < bytes_per_word w)%nat) by now apply bytes_per_word_pos.
  rewrite !(pack_valid w _ H), !map_value_expected.
  apply Nat.Div0.mod_divides in Hmod as [q Hq].
  rewrite (chunks_app (bytes_per_word w) q a b Hk) by lia.
  apply map_app.
Qed.

Lemma pack_values_app_witness :
  map value (pack 16 ([x01; x02] ++ [x03; x04; x05]))
  = map value (pack 16 [x01; x02]) ++ map value (pack 16 [x03; x04; x05]).
Proof. apply (pack_values_app 16 [x01; x02] [x03; x04; x05]); reflexivity. Defined.

(** X5. For a width in {8,16,32} and a buffer of [L] bytes with
    [L + (w/8 - 1) < 2^32], the element count written between the
    brackets and in the size declaration is the number of elements the
    loop writes into the braces, [ceil(L / (w/8))]. *)
Theorem declared_count_is_emitted_count w buf :
  valid_bitsize w = true ->
  Z.of_nat (length buf) + (w / 8 - 1) < 2 ^ 32 ->
  array_size w (Z.of_nat (length buf)) = Z.of_nat (length (pack w buf))
  /\ array_size w (Z.of_nat (length buf)) = ceil_div (Z.of_nat (length buf)) (w / 8).
Proof.
  intros H Hfit. split.
  - now apply array_size_pack.
  - apply array_size_ceil; [assumption | lia | assumption].
Qed.

Lemma declared_count_is_emitted_count_witness :
  array_size 32 (Z.of_nat (length [x01; x02; x03; x04; x05]))
  = Z.of_nat (length (pack 32 [x01; x02; x03; x04; x05]))
  /\ array_size 32 (Z.of_nat (length [x01; x02; x03; x04; x05]))
     = ceil_div (Z.of_nat (length [x01; x02; x03; x04; x05])) (32 / 8).
Proof.
  apply (declared_count_is_emitted_count 32 [x01; x02; x03; x04; x05]); reflexivity.
Defined.

Lemma hex_digit_value_digit d :
  0 <= d < 16 -> hex_digit_value (hex_digit d) = Some d.
Proof.
  intros Hd.
  assert (Hc : d = 0 \/ d = 1 \/ d = 2 \/ d = 3 \/ d = 4 \/ d = 5 \/ d = 6 \/ d = 7 \/
               d = 8 \/ d = 9 \/ d = 10 \/ d = 11 \/ d = 12 \/ d = 13 \/ d = 14 \/ d = 15)
    by lia.
  repeat (destruct Hc as [-> | Hc]; [reflexivity |]). subst d. reflexivity.
Qed.

Lemma hex_value_from_digits : forall (f : nat) (v : Z) (acc : string),
  0 <= v < 16 ^ Z.of_nat f ->
  hex_value_from (hex_digits f v acc) 0 = hex_value_from acc v.
Proof.
  induction f as [| f IH]; intros v acc Hv.
  - cbn [hex_digits]. change (16 ^ Z.of_nat 0) with 1 in Hv.
    replace v with 0 by lia. reflexivity.
  - cbn [hex_digits].
    assert (Hmod : 0 <= v mod 16 < 16) by (apply Z.mod_pos_bound; lia).
    assert (Hsplit : v = 16 * (v / 16) + v mod 16) by (apply Z.div_mod; lia).
    destruct (Z.eqb_spec (v / 16) 0) as [Hz | Hnz].
    + cbn [hex_value_from]. rewrite (hex_digit_value_digit _ Hmod).
      f_equal. lia.
    + rewrite IH.
      * cbn [hex_value_from]. rewrite (hex_digit_value_digit _ Hmod).
        f_equal. lia.
      * split; [apply Z.div_pos; lia |].
        apply Z.div_lt_upper_bound; [lia |].
        replace (Z.of_nat (S f)) with (1 + Z.of_nat f) in Hv by lia.
        rewrite Z.pow_add_r in Hv by lia. lia.
Qed.

Lemma hex_value_from_zeros (n : nat) (s : string) :
  hex_value_from (zeros n +:+ s) 0 = hex_value_from s 0.
Proof.
  induction n as [| n IH]; [reflexivity |].
  cbn [zeros]. rewrite append_cons. cbn [hex_value_from]. exact IH.
Qed.

Lemma fmt_0x_value (n : nat) (v : Z) :
  0 <= v < 2 ^ 32 ->
  hex_value_from (fmt_0x n v) 0 = Some v /\ fmt_0x n v <> EmptyString.
Proof.
  intros Hv. unfold fmt_0x. split.
  - rewrite hex_value_from_zeros, hex_value_from_digits; [reflexivity |].
    change (16 ^ Z.of_nat 8) with (2 ^ 32). exact Hv.
  - pose proof (hex_digits_length 8 8 v EmptyString) as Hlen.
    change (16 ^ Z.of_nat 8) with (2 ^ 32) in Hlen.
    specialize (Hlen Hv ltac:(lia)). cbn [String.length] in Hlen.
    intros E. apply (f_equal String.length) in E.
    rewrite string_length_app in E. cbn [String.length] in E. lia.
Qed.

Lemma parse_hex_literal_0x (s : string) :
  s <> EmptyString -> parse_hex_literal ("0x" +:+ s) = hex_value_from s 0.
Proof. intros Hs. destruct s; [congruence | reflexivity]. Qed.

(** X6. The literal written for an element reads back as its value: for
    a width in {8,16,32} and a value of 32 bits, [print_word] gives [0x]
    followed by lower-case hexadecimal digits whose value is the word.
    No digit is lost when the value has more digits than the width. *)
Theorem literal_reads_back w v :
  valid_bitsize w = true ->
  0 <= v < 2 ^ 32 ->
  parse_hex_literal (print_word w v) = Some v.
Proof.
  intros H Hv. unfold print_word.
  destruct (valid_bitsize_cases w H) as [-> | [-> | ->]]; cbn [Z.eqb Pos.eqb];
    rewrite parse_hex_literal_0x by (apply (proj2 (fmt_0x_value _ v Hv)));
    apply (proj1 (fmt_0x_value _ v Hv)).
Qed.

Lemma literal_reads_back_witness :
  parse_hex_literal (print_word 8 43981) = Some 43981.
Proof. apply (literal_reads_back 8 43981); [reflexivity | lia]. Defined.

(** ** The command line: what is accepted and what stops the run *)

Ltac parse_cases Hp :=
  repeat match type of Hp with
         | (if valid_bitsize ?x then _ else _) = _ => destruct (valid_bitsize x) eqn:?
         | (if ?b then _ else _) = _ => destruct b eqn:?
         | (let _ := _ in _) = _ => cbv zeta in Hp
         | match ?l with [] => _ | _ :: _ => _ end = _ => destruct l as [| ? ?] eqn:?
         | match ?o with Some _ => _ | None => _ end = _ => destruct o eqn:?
         | Stopped _ = Parsed _ => discriminate Hp
         end.

(** X7. Whenever the arguments are accepted the width is 8, 16 or 32,
    whatever [-b]/[--bits] options were given and in whatever order: the
    assertion of line 531 cannot fail. *)
Theorem accepted_width_is_valid args c :
  parse_args args config_init = Parsed c ->
  valid_bitsize (bitsize c) = true.
Proof.
  intros Hp.
  exact (parse_args_valid_width (length args) args config_init c eq_refl eq_refl Hp).
Qed.

Lemma accepted_width_is_valid_witness :
  valid_bitsize (bitsize (set_bitsize 32 (set_bitsize 16 (set_inputname "in.bin" config_init))))
  = true.
Proof.
  apply (accepted_width_is_valid ["in.bin"; "-b16"; "--bits"; "32"]%string). reflexivity.
Defined.

Lemma parse_options_keep_input : forall (n : nat) (args : list string) (c0 c : config),
  length args = n ->
  Forall (fun a => Ascii.eqb (char_at a 0) "-" = true) args ->
  parse_args args c0 = Parsed c ->
  f_inputname c = f_inputname c0.
Proof.
  induction n as [n IH] using lt_wf_ind. intros args c0 c Hn Hall Hp.
  destruct args as [| a args].
  - cbn in Hp. injection Hp as ->. reflexivity.
  - apply Forall_cons in Hall as [Ha Hall].
    assert (IH1 : forall c1, f_inputname c1 = f_inputname c0 ->
                             parse_args args c1 = Parsed c -> f_inputname c = f_inputname c0).
    { intros c1 E H1. rewrite <- E.
      apply (IH (length args) ltac:(subst n; cbn; lia) args c1 c eq_refl Hall H1). }
    assert (IH2 : forall v args' c1, args = v :: args' -> f_inputname c1 = f_inputname c0 ->
                   parse_args args' c1 = Parsed c -> f_inputname c = f_inputname c0).
    { intros v args' c1 -> E H1. rewrite <- E. apply Forall_cons in Hall as [_ Hall'].
      apply (IH (length args') ltac:(subst n; cbn; lia) args' c1 c eq_refl Hall' H1). }
    cbn [parse_args] in Hp. rewrite Ha in Hp.
    parse_cases Hp;
      first [ discriminate Hp
            | now (eapply IH1; [| exact Hp])
            | now (eapply IH2; [reflexivity | | exact Hp]) ].
Qed.

(** X8. A command line with at least one argument, all of whose
    arguments start with [-] and are accepted, has no input file: the run
    ends with status 1 and the message [No input file], and the files are
    what they were. *)
Theorem options_only_is_no_input_file prog a args c w :
  Forall (fun x => Ascii.eqb (char_at x 0) "-" = true) (a :: args) ->
  parse_args (a :: args) config_init = Parsed c ->
  main (prog :: a :: args) w
  = Exit 1 ("ERROR: No input file. Use 'bin2c --help' for usage information." +:+ nl) w.
Proof.
  intros Hall Hp. unfold main. rewrite Hp. unfold run.
  rewrite (parse_options_keep_input (length (a :: args)) (a :: args) config_init c
             eq_refl Hall Hp).
  reflexivity.
Qed.

Lemma options_only_is_no_input_file_witness :
  main ["bin2c"; "-z"; "-b16"; "-d"]%string example_world
  = Exit 1 ("ERROR: No input file. Use 'bin2c --help' for usage information." +:+ nl)
      example_world.
Proof.
  apply (options_only_is_no_input_file "bin2c" "-z" ["-b16"; "-d"]%string
           (set_macro (set_bitsize 16 (set_zero config_init)))).
  - repeat constructor.
  - reflexivity.
Defined.

Lemma bits_option_dash a : is_bits_option a = true -> Ascii.eqb (char_at a 0) "-" = true.
Proof.
  unfold is_bits_option. intros Hopt. destruct a as [| c0 a]; [discriminate |].
  cbn in Hopt |- *. destruct (Ascii.eqb c0 "-"); [reflexivity | discriminate].
Qed.

Lemma bits_option_not_append a :
  is_bits_option a = true -> strcmp_eq a "-a" || strcmp_eq a "--append" = false.
Proof.
  intros Hopt. unfold strcmp_eq.
  destruct (String.eqb_spec a "-a") as [-> | _]; [discriminate |].
  destruct (String.eqb_spec a "--append") as [-> | _]; [discriminate | reflexivity].
Qed.

Lemma numeral_value_lower d v : numeral_value d = Some v -> 0 <= v.
Proof.
  destruct d as [| c r]; [discriminate |]. cbn [numeral_value].
  apply numeral_digits_lower. lia.
Qed.

(** X9. The width behind [-b]/[--bits], written as a decimal numeral
    [d] (leading zeros allowed) in any of the four spellings [-b<d>],
    [--bits<d>], [-b <d>] and [--bits <d>], after accepted arguments.  When
    the number is 8, 16 or 32 it becomes the width and the loop goes on
    behind the option and its value.  When it is another number below 2^32
    the run ends with status 1, the bit-size message and the files as they
    were.  In general the number counts as [min(v, LONG_MAX) mod 2^32]:
    that residue decides between the two. *)
Theorem width_numeral_is_reduced prog pre d v rest args c w :
  parse_args pre config_init = Parsed c ->
  numeral_value d = Some v ->
  In args (bits_spellings d rest) ->
  (valid_bitsize v = true ->
     parse_args (pre ++ args) config_init = parse_args rest (set_bitsize v c))
  /\ (v < 2 ^ 32 -> valid_bitsize v = false ->
        main (prog :: pre ++ args) w
        = Exit 1 ("ERROR: Invalid bit size (must be 8, 16 or 32)." +:+ nl) w)
  /\ parse_args (pre ++ args) config_init
     = (if valid_bitsize (uint32 (Z.min LONG_MAX v))
        then parse_args rest (set_bitsize (uint32 (Z.min LONG_MAX v)) c)
        else Stopped (Fatal bits_error)).
Proof.
  intros Hpre Hd Hin. pose proof (numeral_value_lower d v Hd) as Hpos.
  destruct (requested_width_numeral d v rest args Hd Hin) as (a & rest0 & -> & Hreq & Hrest).
  assert (Hsmall : v < 2 ^ 32 -> uint32 (Z.min LONG_MAX v) = v).
  { intros Hlt. unfold LONG_MAX. rewrite Z.min_r by lia. apply uint32_small. lia. }
  assert (Hgen : parse_args (pre ++ a :: rest0) config_init
                 = (if valid_bitsize (uint32 (Z.min LONG_MAX v))
                    then parse_args rest (set_bitsize (uint32 (Z.min LONG_MAX v)) c)
                    else Stopped (Fatal bits_error))).
  { rewrite (parse_args_app (length pre) pre (a :: rest0) config_init c eq_refl Hpre).
    destruct (valid_bitsize (uint32 (Z.min LONG_MAX v))) eqn:Hv.
    - now rewrite (parse_bits_accepted a rest0 c _ Hreq Hv), Hrest.
    - exact (parse_bits_rejected a rest0 c _ Hreq Hv). }
  split; [| split; [| exact Hgen]].
  - intros Hv. rewrite Hgen.
    assert (Hlt : v < 2 ^ 32) by (destruct (valid_bitsize_cases v Hv) as [-> | [-> | ->]]; lia).
    now rewrite (Hsmall Hlt), Hv.
  - intros Hlt Hbad. apply (rejected_width_stops prog pre a rest0 c _ w Hpre Hreq).
    now rewrite (Hsmall Hlt).
Qed.

Lemma width_numeral_is_reduced_witness :
  (valid_bitsize 16 = true ->
     parse_args (["in.bin"%string] ++ ["-b016"%string; "out.h"%string]) config_init
     = parse_args ["out.h"]%string (set_bitsize 16 (set_inputname "in.bin" config_init)))
  /\ (16 < 2 ^ 32 -> valid_bitsize 16 = false ->
        main ("bin2c" :: ["in.bin"] ++ ["-b016"; "out.h"])%string example_world
        = Exit 1 ("ERROR: Invalid bit size (must be 8, 16 or 32)." +:+ nl) example_world)
  /\ parse_args (["in.bin"%string] ++ ["-b016"%string; "out.h"%string]) config_init
     = (if valid_bitsize (uint32 (Z.min LONG_MAX 16))
        then parse_args ["out.h"]%string
               (set_bitsize (uint32 (Z.min LONG_MAX 16)) (set_inputname "in.bin" config_init))
        else Stopped (Fatal bits_error)).
Proof.
  apply (width_numeral_is_reduced "bin2c" ["in.bin"]%string "016" 16 ["out.h"]%string
           ["-b016"; "out.h"]%string (set_inputname "in.bin" config_init) example_world).
  - reflexivity.
  - reflexivity.
  - left. reflexivity.
Defined.

(** X10. A [-b]/[--bits] option from which no width can be read (other
    text attached, as in [-bogus], or no argument behind it) and a
    [-l]/[--label] option that is the last argument are reported as an
    invalid option: after accepted arguments the run ends with status 1,
    the message names the option, the list of options follows, and the
    files are what they were. *)
Theorem malformed_option_is_reported prog pre a rest c w :
  parse_args pre config_init = Parsed c ->
  (is_bits_option a = true /\ requested_width a rest = None)
  \/ ((a = "-l"%string \/ a = "--label"%string) /\ rest = []) ->
  main (prog :: pre ++ a :: rest) w
  = Exit 1 ("ERROR: Invalid option '" +:+ a +:+ "'." +:+ nl +:+ nl +:+ usage_options) w.
Proof.
  intros Hpre Hbad. unfold main.
  assert (Hp : parse_args (pre ++ a :: rest) config_init = Stopped (About (Some a))).
  { rewrite (parse_args_app (length pre) pre (a :: rest) config_init c eq_refl Hpre).
    destruct Hbad as [[Hopt Hreq] | [[-> | ->] ->]]; [| reflexivity | reflexivity].
    unfold requested_width, bits_offset in Hreq. rewrite Hopt in Hreq.
    cbn [parse_args].
    rewrite (bits_option_dash a Hopt), (bits_option_not_append a Hopt), Hopt. cbv zeta.
    destruct (isdigit (char_at a (if Ascii.eqb (char_at a 1) "-" then 6%nat else 2%nat)));
      [discriminate |].
    destruct rest as [| v rest']; [reflexivity |].
    destruct (Ascii.eqb (char_at a (if Ascii.eqb (char_at a 1) "-" then 6%nat else 2%nat)) NUL);
      [discriminate | reflexivity]. }
  destruct (pre ++ a :: rest) as [| x l] eqn:E.
  - destruct pre; discriminate E.
  - rewrite Hp. reflexivity.
Qed.

Lemma malformed_option_is_reported_witness :
  main ("bin2c" :: ["in.bin"] ++ "-bogus" :: ["out.h"])%string example_world
  = Exit 1 ("ERROR: Invalid option '" +:+ "-bogus" +:+ "'." +:+ nl +:+ nl +:+ usage_options)
      example_world.
Proof.
  apply (malformed_option_is_reported "bin2c" ["in.bin"]%string "-bogus" ["out.h"]%string
           (set_inputname "in.bin" config_init) example_world).
  - reflexivity.
  - left. split; reflexivity.
Defined.

(** X11. [-h], [--help] and [-?], reached after accepted arguments,
    print the usage text and end the run with status 1, whatever
    follows; no file is read or written. *)
Theorem help_stops_with_usage prog pre a rest c w :
  parse_args pre config_init = Parsed c ->
  a = "-h"%string \/ a = "--help"%string \/ a = "-?"%string ->
  main (prog :: pre ++ a :: rest) w = Exit 1 (usage_head +:+ usage_options) w.
Proof.
  intros Hpre Ha. unfold main.
  assert (Hp : parse_args (pre ++ a :: rest) config_init = Stopped (About None)).
  { rewrite (parse_args_app (length pre) pre (a :: rest) config_init c eq_refl Hpre).
    destruct Ha as [-> | [-> | ->]]; reflexivity. }
  destruct (pre ++ a :: rest) as [| x l] eqn:E.
  - destruct pre; discriminate E.
  - rewrite Hp. reflexivity.
Qed.

Lemma help_stops_with_usage_witness :
  main ("bin2c" :: ["in.bin"; "-z"] ++ "-?" :: ["--bits"; "12"])%string example_world
  = Exit 1 (usage_head +:+ usage_options) example_world.
Proof.
  apply (help_stops_with_usage "bin2c" ["in.bin"; "-z"]%string "-?" ["--bits"; "12"]%string
           (set_zero (set_inputname "in.bin" config_init)) example_world).
  - reflexivity.
  - right; right; reflexivity.
Defined.

(** X12. A third file name stops the run: after accepted arguments that
    named the input and the output file, an argument that does not start
    with [-] ends the run with status 1 and the message [Too many
    filenames]; the files are what they were. *)
Theorem third_file_name_is_rejected prog pre a rest c i o w :
  parse_args pre config_init = Parsed c ->
  f_inputname c = Some i -> f_outputname c = Some o ->
  Ascii.eqb (char_at a 0) "-" = false ->
  main (prog :: pre ++ a :: rest) w
  = Exit 1 ("ERROR: Too many filenames. Use 'bin2c --help' for usage information." +:+ nl) w.
Proof.
  intros Hpre Hi Ho Ha. unfold main.
  assert (Hp : parse_args (pre ++ a :: rest) config_init
               = Stopped (Fatal "Too many filenames. Use 'bin2c --help' for usage information.")).
  { rewrite (parse_args_app (length pre) pre (a :: rest) config_init c eq_refl Hpre).
    cbn [parse_args]. rewrite Ha, Hi, Ho. reflexivity. }
  destruct (pre ++ a :: rest) as [| x l] eqn:E.
  - destruct pre; discriminate E.
  - rewrite Hp. reflexivity.
Qed.

Lemma third_file_name_is_rejected_witness :
  main ("bin2c" :: ["in.bin"; "-z"; "out.h"] ++ "more.h" :: [])%string example_world
  = Exit 1 ("ERROR: Too many filenames. Use 'bin2c --help' for usage information." +:+ nl)
      example_world.
Proof.
  apply (third_file_name_is_rejected "bin2c" ["in.bin"; "-z"; "out.h"]%string "more.h" []
           (set_outputname "out.h" (set_zero (set_inputname "in.bin" config_init)))
           "in.bin" "out.h" example_world); reflexivity.
Defined.

(** ** Names: directories, extension *)

Lemma skip_dirs_loop_done (fuel : nat) (fpos : string) :
  strpbrk_sep fpos = None -> skip_dirs_loop fuel fpos = fpos.
Proof. intros H. destruct fuel; cbn [skip_dirs_loop]; now rewrite H. Qed.

Lemma strpbrk_sep_app (dir name : string) (sep : ascii) :
  is_separator sep = true ->
  strpbrk_sep (dir +:+ String sep name)
  = Some (match strpbrk_sep dir with Some i => i | None => String.length dir end).
Proof.
  intros Hsep. induction dir as [| d dir IH].
  - rewrite append_nil_l. cbn [strpbrk_sep String.length]. now rewrite Hsep.
  - rewrite append_cons. cbn [strpbrk_sep String.length].
    destruct (is_separator d); [reflexivity |].
    rewrite IH. destruct (strpbrk_sep dir); reflexivity.
Qed.

Lemma string_from_app : forall (j : nat) (dir rest : string),
  (j <= String.length dir)%nat ->
  string_from j (dir +:+ rest) = (string_from j dir +:+ rest)%string.
Proof.
  induction j as [| j IH]; intros dir rest Hj; [reflexivity |].
  destruct dir as [| d dir]; [cbn in Hj; lia |].
  rewrite append_cons. cbn [string_from]. apply IH. cbn in Hj. lia.
Qed.

Lemma string_from_all (s : string) : string_from (String.length s) s = EmptyString.
Proof. induction s as [| d s IH]; [reflexivity | exact IH]. Qed.

Lemma skip_dirs_loop_last (name : string) (sep : ascii) :
  is_separator sep = true -> strpbrk_sep name = None ->
  forall (fuel : nat) (dir : string),
    (String.length (dir +:+ String sep name) <= fuel)%nat ->
    skip_dirs_loop fuel (dir +:+ String sep name) = name.
Proof.
  intros Hsep Hname. induction fuel as [| fuel IH]; intros dir Hlen.
  - rewrite string_length_app in Hlen. cbn [String.length] in Hlen. lia.
  - cbn [skip_dirs_loop]. rewrite (strpbrk_sep_app dir name sep Hsep).
    rewrite string_length_app in Hlen. cbn [String.length] in Hlen.
    destruct (strpbrk_sep dir) as [i |] eqn:Hdir.
    + pose proof (strpbrk_sep_bound dir i Hdir) as Hi.
      rewrite string_from_app by lia. apply IH.
      rewrite string_length_app, string_from_length. cbn [String.length]. lia.
    + change (S (String.length dir)) with (1 + String.length dir)%nat.
      replace (1 + String.length dir)%nat with (String.length (dir +:+ String sep EmptyString))
        by (rewrite string_length_app; cbn [String.length]; lia).
      replace (dir +:+ String sep name)%string
        with ((dir +:+ String sep EmptyString) +:+ name)%string
        by (rewrite append_assoc; reflexivity).
      rewrite string_from_app by lia.
      rewrite string_from_all, append_nil_l.
      now apply skip_dirs_loop_done.
Qed.

(** X13. Skipping the directory names leaves what follows the last
    slash or backslash: for a name without separator, behind any
    directory part, [skip_dirs] returns the name, and a name without
    separator is returned as it is.  The result never holds a
    separator. *)
Theorem skip_dirs_keeps_last_component dir sep name :
  is_separator sep = true ->
  has_separator name = false ->
  skip_dirs (dir +:+ String sep name) = name
  /\ skip_dirs name = name
  /\ forall any, has_separator (skip_dirs any) = false.
Proof.
  intros Hsep Hname. apply strpbrk_sep_has_separator in Hname.
  split; [| split].
  - unfold skip_dirs. now apply skip_dirs_loop_last.
  - unfold skip_dirs. now apply skip_dirs_loop_done.
  - intros any. apply strpbrk_sep_has_separator. apply skip_dirs_no_separator.
Qed.

Lemma skip_dirs_keeps_last_component_witness :
  skip_dirs ("C:\data/img" +:+ String "/" "logo.png") = "logo.png"%string
  /\ skip_dirs "logo.png" = "logo.png"%string
  /\ forall any, has_separator (skip_dirs any) = false.
Proof.
  apply (skip_dirs_keeps_last_component "C:\data/img" "/" "logo.png"); reflexivity.
Defined.

(** X14. Removing the extension cuts at the last dot: [stem.ext], with
    no dot in [ext], gives [stem] (dots inside [stem] stay), and a name
    without a dot is returned as it is. *)
Theorem remove_extension_cuts_last_dot stem ext :
  has_char "." ext = false ->
  remove_extension (stem +:+ "." +:+ ext) = stem
  /\ remove_extension ext = ext.
Proof.
  intros Hext. unfold remove_extension. split.
  - change ("." +:+ ext)%string with (String "." ext).
    rewrite (strrchr_last stem ext "." Hext). apply truncate_at_app.
  - now rewrite (strrchr_absent ext "." Hext).
Qed.

Lemma remove_extension_cuts_last_dot_witness :
  remove_extension ("archive.tar" +:+ "." +:+ "gz") = "archive.tar"%string
  /\ remove_extension "gz" = "gz"%string.
Proof. apply (remove_extension_cuts_last_dot "archive.tar" "gz"). reflexivity. Defined.

(** ** Names: the label and its block *)

Lemma substitute_eq (c : ascii) (r b f : string) :
  substitute (String c r) b f
  = if Ascii.eqb c "$" then
      match r with
      | String d r' =>
          if Ascii.eqb d "*" then (b +:+ substitute r' b f)%string
          else if Ascii.eqb d "@" then (f +:+ substitute r' b f)%string
          else String c (substitute r b f)
      | EmptyString => String c (substitute r b f)
      end
    else String c (substitute r b f).
Proof.
  destruct c as [[] [] [] [] [] [] [] []]; try reflexivity.
  destruct r as [| d r']; [reflexivity |].
  destruct d as [[] [] [] [] [] [] [] []]; reflexivity.
Qed.

Lemma count_star_eq (c : ascii) (r : string) :
  count_star (String c r)
  = if Ascii.eqb c "$" then
      match r with
      | String d r' =>
          if Ascii.eqb d "*" then S (count_star r')
          else if Ascii.eqb d "@" then count_star r'
          else count_star r
      | EmptyString => count_star r
      end
    else count_star r.
Proof.
  destruct c as [[] [] [] [] [] [] [] []]; try reflexivity.
  destruct r as [| d r']; [reflexivity |].
  destruct d as [[] [] [] [] [] [] [] []]; reflexivity.
Qed.

Lemma count_at_eq (c : ascii) (r : string) :
  count_at (String c r)
  = if Ascii.eqb c "$" then
      match r with
      | String d r' =>
          if Ascii.eqb d "*" then count_at r'
          else if Ascii.eqb d "@" then S (count_at r')
          else count_at r
      | EmptyString => count_at r
      end
    else count_at r.
Proof.
  destruct c as [[] [] [] [] [] [] [] []]; try reflexivity.
  destruct r as [| d r']; [reflexivity |].
  destruct d as [[] [] [] [] [] [] [] []]; reflexivity.
Qed.

Lemma strstr2_cons (c c1 c2 : ascii) (r : string) :
  strstr2 r c1 c2 = true -> strstr2 (String c r) c1 c2 = true.
Proof.
  intros H. destruct r as [| e r']; [discriminate |].
  cbn [strstr2] in *. rewrite H. apply orb_true_r.
Qed.

Lemma label_induction (P : string -> Prop) :
  P EmptyString ->
  (forall c r, P r -> (forall d r', r = String d r' -> P r') -> P (String c r)) ->
  forall s, P s.
Proof.
  intros H0 Hstep s.
  assert (G : P s /\ forall d r', s = String d r' -> P r').
  { induction s as [| c r [IH1 IH2]].
    - split; [exact H0 | discriminate].
    - split; [apply Hstep; assumption |].
      intros d r' E. injection E as _ <-. exact IH1. }
  exact (proj1 G).
Qed.

(** The text written for a label: each token taken is two characters of
    the label replaced by a name. *)
Lemma substitute_length (b f : string) : forall tpl : string,
  (String.length (substitute tpl b f) + 2 * (count_star tpl + count_at tpl)
   = String.length tpl + count_star tpl * String.length b + count_at tpl * String.length f)%nat.
Proof.
  induction tpl as [| c r IH1 IH2] using label_induction; [reflexivity |].
  rewrite substitute_eq, count_star_eq, count_at_eq.
  destruct (Ascii.eqb c "$").
  - destruct r as [| d r'].
    + cbn [String.length] in *. lia.
    + specialize (IH2 d r' eq_refl).
      destruct (Ascii.eqb d "*"); [| destruct (Ascii.eqb d "@")].
      * rewrite string_length_app. cbn [String.length]. lia.
      * rewrite string_length_app. cbn [String.length]. lia.
      * cbn [String.length] in *. lia.
  - cbn [String.length] in *. lia.
Qed.

Lemma count_star_strstr : forall tpl : string,
  (0 < count_star tpl)%nat -> strstr2 tpl "$" "*" = true.
Proof.
  induction tpl as [| c r IH1 IH2] using label_induction; [cbn; lia |].
  rewrite count_star_eq. intros H.
  destruct (Ascii.eqb_spec c "$") as [-> | Hc].
  - destruct r as [| d r']; [cbn in H; lia |].
    destruct (Ascii.eqb_spec d "*") as [-> | Hd]; [reflexivity |].
    destruct (Ascii.eqb d "@").
    + apply strstr2_cons, strstr2_cons. now apply (IH2 d r' eq_refl).
    + apply strstr2_cons. now apply IH1.
  - apply strstr2_cons. now apply IH1.
Qed.

Lemma count_at_strstr : forall tpl : string,
  (0 < count_at tpl)%nat -> strstr2 tpl "$" "@" = true.
Proof.
  induction tpl as [| c r IH1 IH2] using label_induction; [cbn; lia |].
  rewrite count_at_eq. intros H.
  destruct (Ascii.eqb_spec c "$") as [-> | Hc].
  - destruct r as [| d r']; [cbn in H; lia |].
    destruct (Ascii.eqb_spec d "*") as [-> | Hd].
    + apply strstr2_cons, strstr2_cons. now apply (IH2 "*"%char r' eq_refl).
    + destruct (Ascii.eqb_spec d "@") as [-> | Hd']; [reflexivity |].
      apply strstr2_cons. now apply IH1.
  - apply strstr2_cons. now apply IH1.
Qed.

(** X15. The block allocated for the symbol name is large enough when
    the label uses each of [$*] and [$@] at most once: the text the loop
    writes is no longer than [symlen].  In general the text has the
    length of the label, minus two for every token taken, plus the length
    of the base name for every [$*] and of the full name for every
    [$@]. *)
Theorem single_tokens_fit_the_block tpl b f :
  (count_star tpl <= 1)%nat -> (count_at tpl <= 1)%nat ->
  (String.length (substitute tpl b f) <= symbol_length tpl b f)%nat
  /\ (String.length (substitute tpl b f) + 2 * (count_star tpl + count_at tpl)
      = String.length tpl + count_star tpl * String.length b
        + count_at tpl * String.length f)%nat.
Proof.
  intros Hs Ha. pose proof (substitute_length b f tpl) as Hlen.
  split; [| exact Hlen]. unfold symbol_length.
  pose proof (count_star_strstr tpl) as Hcs. pose proof (count_at_strstr tpl) as Hca.
  destruct (count_star tpl) as [| [| ns]]; [| | lia];
    destruct (count_at tpl) as [| [| na]]; try lia;
    try rewrite (Hcs ltac:(lia)); try rewrite (Hca ltac:(lia));
    destruct (strstr2 tpl "$" "*"); destruct (strstr2 tpl "$" "@"); lia.
Qed.

Lemma single_tokens_fit_the_block_witness :
  (String.length (substitute "img_$*_of_$@" "logo" "logo.png")
   <= symbol_length "img_$*_of_$@" "logo" "logo.png")%nat
  /\ (String.length (substitute "img_$*_of_$@" "logo" "logo.png")
      + 2 * (count_star "img_$*_of_$@" + count_at "img_$*_of_$@")
      = String.length "img_$*_of_$@" + count_star "img_$*_of_$@" * String.length "logo"
        + count_at "img_$*_of_$@" * String.length "logo.png")%nat.
Proof.
  apply (single_tokens_fit_the_block "img_$*_of_$@" "logo" "logo.png"); cbn; lia.
Defined.

(** X16. A label that repeats a token can overrun the block: [symlen]
    counts the base name and the full name once each, so when the names
    written for the tokens taken are together longer than that and the
    two characters saved per token, the loop writes behind the
    [symlen + 1] bytes allocated and no symbol name is defined. *)
Theorem repeated_tokens_overrun_the_block tpl inputname :
  let fullname := skip_dirs inputname in
  let basename := remove_extension fullname in
  (2 * (count_star tpl + count_at tpl)
   + (if strstr2 tpl "$" "*" then String.length basename else 0)
   + (if strstr2 tpl "$" "@" then String.length fullname else 0)
   < count_star tpl * String.length basename + count_at tpl * String.length fullname)%nat ->
  (symbol_length tpl basename fullname
   < String.length (substitute tpl basename fullname))%nat
  /\ symbol_name (Some tpl) inputname = None.
Proof.
  intros fullname basename Hlong.
  pose proof (substitute_length basename fullname tpl) as Hlen.
  assert (Hover : (symbol_length tpl basename fullname
                   < String.length (substitute tpl basename fullname))%nat).
  { unfold symbol_length. lia. }
  split; [exact Hover |].
  unfold symbol_name. fold fullname. fold basename.
  destruct (Nat.leb_spec (String.length (substitute tpl basename fullname))
              (symbol_length tpl basename fullname)) as [Hle | _]; [lia | reflexivity].
Qed.

Lemma repeated_tokens_overrun_the_block_witness :
  (symbol_length "$*$*$*" (remove_extension (skip_dirs "sprites.bin")) (skip_dirs "sprites.bin")
   < String.length (substitute "$*$*$*" (remove_extension (skip_dirs "sprites.bin"))
                      (skip_dirs "sprites.bin")))%nat
  /\ symbol_name (Some "$*$*$*"%string) "sprites.bin" = None.
Proof. apply (repeated_tokens_overrun_the_block "$*$*$*" "sprites.bin"). cbn. lia. Defined.

Lemma replace_illegal_legal (s : string) :
  s <> EmptyString -> legal_identifier (replace_illegal s) = true.
Proof.
  intros Hne. destruct s as [| c r]; [congruence |].
  cbn [replace_illegal legal_identifier].
  rewrite list_ascii_of_string_of_list_ascii.
  apply andb_true_iff. split.
  - unfold keep_or_underscore. destruct (legal_first c) eqn:H; [exact H | reflexivity].
  - induction (list_ascii_of_string r) as [| d l IH]; [reflexivity |].
    cbn [map forallb]. rewrite IH, andb_true_r.
    unfold keep_or_underscore. destruct (legal_next d) eqn:H; [exact H | reflexivity].
Qed.

Lemma replace_illegal_no_NUL (s : string) :
  has_NUL s = false -> has_NUL (replace_illegal s) = false.
Proof.
  intros Hnul. destruct s as [| c r]; [reflexivity |].
  pose proof (has_NUL_chars _ Hnul) as Hall.
  cbn [list_ascii_of_string forallb] in Hall.
  apply andb_true_iff in Hall as [Hc Hr]. apply negb_true_iff in Hc.
  unfold has_NUL. cbn [replace_illegal list_ascii_of_string existsb].
  rewrite list_ascii_of_string_of_list_ascii, (keep_first_not_NUL c Hc). cbn [orb].
  pose proof (replaced_chars_not_NUL _ Hr) as Hmap. revert Hmap.
  generalize (map (fun d => keep_or_underscore (legal_next d) d) (list_ascii_of_string r)).
  intros l. induction l as [| d l IH]; intros H; [reflexivity |].
  cbn [forallb existsb] in *. apply andb_true_iff in H as [Hd Hl].
  apply negb_true_iff in Hd. now rewrite Hd, (IH Hl).
Qed.

Lemma replace_illegal_nonempty (s : string) :
  s <> EmptyString -> replace_illegal s <> EmptyString.
Proof. intros Hne. destruct s; [congruence | discriminate]. Qed.

(** X17. The identifier check makes a legal C identifier of every name
    of at least one character: the result starts with a letter or an
    underscore and goes on with letters, digits and underscores, and
    checking it once more changes nothing. *)
Theorem sanitized_name_is_legal (s : string) :
  s <> EmptyString -> has_NUL s = false ->
  sanitize_name s = Some (replace_illegal s)
  /\ legal_identifier (replace_illegal s) = true
  /\ sanitize_name (replace_illegal s) = Some (replace_illegal s).
Proof.
  intros Hne Hnul.
  destruct (sanitize_name_nonempty s Hne Hnul) as [Hs _].
  pose proof (replace_illegal_legal s Hne) as Hlegal.
  split; [exact Hs |]. split; [exact Hlegal |].
  destruct (sanitize_name_nonempty (replace_illegal s)
              (replace_illegal_nonempty s Hne) (replace_illegal_no_NUL s Hnul))
    as [Hs2 [_ Hfix]].
  now rewrite Hs2, (Hfix Hlegal).
Qed.

Lemma sanitized_name_is_legal_witness :
  sanitize_name "2nd-logo.v2" = Some (replace_illegal "2nd-logo.v2")
  /\ legal_identifier (replace_illegal "2nd-logo.v2") = true
  /\ sanitize_name (replace_illegal "2nd-logo.v2") = Some (replace_illegal "2nd-logo.v2").
Proof. apply (sanitized_name_is_legal "2nd-logo.v2"); [discriminate | reflexivity]. Defined.

Lemma symbol_name_of_text (label : option string) (inputname : string) :
  let fullname := skip_dirs inputname in
  let basename := remove_extension fullname in
  let tpl := match label with Some l => l | None => "$*"%string end in
  let text := substitute tpl basename fullname in
  (count_star tpl <= 1)%nat -> (count_at tpl <= 1)%nat ->
  text <> EmptyString -> has_NUL text = false ->
  symbol_name label inputname = Some (replace_illegal text).
Proof.
  intros fullname basename tpl text Hs Ha Hne Hnul.
  unfold symbol_name. fold fullname. fold basename. fold tpl. fold text.
  pose proof (count_star_strstr tpl) as Hcs. pose proof (count_at_strstr tpl) as Hca.
  pose proof (substitute_length basename fullname tpl) as Hlen. fold text in Hlen.
  assert (Hfit : (String.length text <= symbol_length tpl basename fullname)%nat).
  { unfold symbol_length.
    destruct (count_star tpl) as [| [| ns]]; [| | lia];
      destruct (count_at tpl) as [| [| na]]; try lia;
      try rewrite (Hcs ltac:(lia)); try rewrite (Hca ltac:(lia));
      destruct (strstr2 tpl "$" "*"); destruct (strstr2 tpl "$" "@"); lia. }
  apply Nat.leb_le in Hfit. rewrite Hfit.
  now apply sanitize_name_nonempty.
Qed.

Lemma append_nil_r (s : string) : (s +:+ EmptyString)%string = s.
Proof. induction s as [| c s IH]; [reflexivity |]. now rewrite append_cons, IH. Qed.

(** X18. Without a label the symbol is the base name of the input file
    made a legal identifier: for an input [dir/stem.ext] or [stem.ext]
    (no separator in [stem.ext], no dot in [ext], [stem] not empty) the
    symbol name is [stem] with every character that is illegal at its
    position replaced by an underscore. *)
Theorem default_symbol_is_base_name dir sep stem ext :
  is_separator sep = true ->
  has_separator (stem +:+ "." +:+ ext) = false ->
  has_char "." ext = false ->
  stem <> EmptyString -> has_NUL stem = false ->
  symbol_name None (dir +:+ String sep (stem +:+ "." +:+ ext)) = Some (replace_illegal stem)
  /\ symbol_name None (stem +:+ "." +:+ ext) = Some (replace_illegal stem)
  /\ legal_identifier (replace_illegal stem) = true.
Proof.
  intros Hsep Hname Hext Hne Hnul.
  assert (Hfull1 : skip_dirs (dir +:+ String sep (stem +:+ "." +:+ ext))
                   = (stem +:+ "." +:+ ext)%string).
  { unfold skip_dirs. apply skip_dirs_loop_last; [assumption | | lia].
    now apply strpbrk_sep_has_separator. }
  assert (Hfull2 : skip_dirs (stem +:+ "." +:+ ext) = (stem +:+ "." +:+ ext)%string).
  { unfold skip_dirs. apply skip_dirs_loop_done. now apply strpbrk_sep_has_separator. }
  assert (Hbase : remove_extension (stem +:+ "." +:+ ext) = stem).
  { unfold remove_extension. change ("." +:+ ext)%string with (String "." ext).
    rewrite (strrchr_last stem ext "." Hext). apply truncate_at_app. }
  assert (Htext : forall full, substitute "$*" stem full = stem).
  { intros full. change (substitute "$*" stem full) with (stem +:+ EmptyString)%string.
    apply append_nil_r. }
  split; [| split].
  - pose proof (symbol_name_of_text None (dir +:+ String sep (stem +:+ "." +:+ ext))) as H.
    cbv zeta in H. rewrite Hfull1, Hbase, Htext in H.
    apply H; [cbn; lia | cbn; lia | assumption | assumption].
  - pose proof (symbol_name_of_text None (stem +:+ "." +:+ ext)) as H.
    cbv zeta in H. rewrite Hfull2, Hbase, Htext in H.
    apply H; [cbn; lia | cbn; lia | assumption | assumption].
  - now apply replace_illegal_legal.
Qed.

Lemma default_symbol_is_base_name_witness :
  symbol_name None ("assets/img" +:+ String "/" ("my-logo.v2" +:+ "." +:+ "png"))
  = Some (replace_illegal "my-logo.v2")
  /\ symbol_name None ("my-logo.v2" +:+ "." +:+ "png") = Some (replace_illegal "my-logo.v2")
  /\ legal_identifier (replace_illegal "my-logo.v2") = true.
Proof.
  apply (default_symbol_is_base_name "assets/img" "/" "my-logo.v2" "png");
    try reflexivity. discriminate.
Defined.

(** X19. A label that takes each of [$*] and [$@] at most once gives
    the substituted text made a legal identifier, provided the text has
    at least one character: the base name stands for [$*], the file name
    without directories for [$@], every other character of the label for
    itself. *)
Theorem label_symbol_is_substituted_text label inputname :
  let fullname := skip_dirs inputname in
  let basename := remove_extension fullname in
  let text := substitute label basename fullname in
  (count_star label <= 1)%nat -> (count_at label <= 1)%nat ->
  text <> EmptyString -> has_NUL text = false ->
  symbol_name (Some label) inputname = Some (replace_illegal text)
  /\ legal_identifier (replace_illegal text) = true
  /\ String.length (replace_illegal text) = String.length text.
Proof.
  intros fullname basename text Hs Ha Hne Hnul.
  split; [| split].
  - now apply (symbol_name_of_text (Some label) inputname).
  - now apply replace_illegal_legal.
  - now apply sanitize_name_nonempty.
Qed.

Lemma label_symbol_is_substituted_text_witness :
  symbol_name (Some "img_$*_of_$@"%string) "assets/logo.png"
  = Some (replace_illegal
            (substitute "img_$*_of_$@" (remove_extension (skip_dirs "assets/logo.png"))
               (skip_dirs "assets/logo.png")))
  /\ legal_identifier
       (replace_illegal
          (substitute "img_$*_of_$@" (remove_extension (skip_dirs "assets/logo.png"))
             (skip_dirs "assets/logo.png"))) = true
  /\ String.length
       (replace_illegal
          (substitute "img_$*_of_$@" (remove_extension (skip_dirs "assets/logo.png"))
             (skip_dirs "assets/logo.png")))
     = String.length
         (substitute "img_$*_of_$@" (remove_extension (skip_dirs "assets/logo.png"))
            (skip_dirs "assets/logo.png")).
Proof.
  apply (label_symbol_is_substituted_text "img_$*_of_$@" "assets/logo.png");
    try (cbn; lia); [discriminate | reflexivity].
Defined.

(** ** The buffer and the files *)

Lemma parse_input_is_argument : forall (n : nat) (args : list string) (c0 c : config) (x : string),
  length args = n ->
  parse_args args c0 = Parsed c ->
  f_inputname c = Some x ->
  f_inputname c0 = Some x \/ In x args.
Proof.
  induction n as [n IH] using lt_wf_ind. intros args c0 c x Hn Hp Hx.
  destruct args as [| a args].
  - cbn in Hp. injection Hp as ->. now left.
  - assert (IH1 : forall c1, (f_inputname c1 = Some x -> f_inputname c0 = Some x \/ x = a) ->
                             parse_args args c1 = Parsed c ->
                             f_inputname c0 = Some x \/ In x (a :: args)).
    { intros c1 E H1.
      destruct (IH (length args) ltac:(subst n; cbn; lia) args c1 c x eq_refl H1 Hx)
        as [Hc1 | Hin].
      - destruct (E Hc1) as [? | ->]; [now left | right; now left].
      - right. now right. }
    assert (IH2 : forall v args' c1, args = v :: args' ->
                   (f_inputname c1 = Some x -> f_inputname c0 = Some x \/ x = a) ->
                   parse_args args' c1 = Parsed c ->
                   f_inputname c0 = Some x \/ In x (a :: args)).
    { intros v args' c1 -> E H1.
      destruct (IH (length args') ltac:(subst n; cbn; lia) args' c1 c x eq_refl H1 Hx)
        as [Hc1 | Hin].
      - destruct (E Hc1) as [? | ->]; [now left | right; now left].
      - right. right. now right. }
    cbn [parse_args] in Hp.
    parse_cases Hp;
      first [ discriminate Hp
            | now (eapply IH1; [| exact Hp]; cbn; intros E;
                   first [now left | left; congruence | injection E as ->; now right])
            | now (eapply IH2; [reflexivity | | exact Hp]; cbn; intros E; now left) ].
Qed.

(** X21. What a run does to the files.  A run that ends with status 1
    leaves every file as it was.  A run that ends with status 0 was given
    the name of an existing file among its arguments, writes one file
    that can be opened for writing, and leaves every other file as it
    was.  No other status is returned. *)
Theorem run_touches_only_the_output prog args w s e w' :
  main (prog :: args) w = Exit s e w' ->
  (s = 1 /\ w' = w)
  \/ (s = 0 /\ e = EmptyString
      /\ (exists inp, In inp args /\ is_Some (files w !! inp))
      /\ locked w' = locked w
      /\ exists out, (out ∉ locked w) /\ is_Some (files w' !! out)
                     /\ forall name, name <> out -> files w' !! name = files w !! name).
Proof.
  unfold main. intros Hm.
  destruct args as [| a args]; [injection Hm as <- _ <-; now left |].
  destruct (parse_args (a :: args) config_init) as [c | f] eqn:Hp;
    [| injection Hm as <- _ <-; now left].
  unfold run in Hm.
  destruct (f_inputname c) as [inp |] eqn:Hin; [| injection Hm as <- _ <-; now left].
  destruct (symbol_name (symbolname c) inp) as [symbol |]; [| discriminate].
  destruct (files w !! inp) as [contents |] eqn:Hfile; [| injection Hm as <- _ <-; now left].
  destruct (decide (_ ∈ locked w)) as [Hlocked | Hfree];
    [injection Hm as <- _ <-; now left |].
  injection Hm as <- <- <-. right.
  split; [reflexivity |]. split; [reflexivity |]. split.
  - exists inp. split; [| rewrite Hfile; eauto].
    destruct (parse_input_is_argument (length (a :: args)) (a :: args) config_init c inp
                eq_refl Hp Hin) as [H0 | H]; [discriminate H0 | exact H].
  - split; [reflexivity |].
    eexists. split; [exact Hfree |]. unfold write_file. cbn [files]. split.
    + rewrite lookup_insert_eq. eauto.
    + intros name Hne. now rewrite lookup_insert_ne.
Qed.

Lemma run_touches_only_the_output_witness :
  (0 = 1 /\ write_file false "in.h"
              (output_text (set_inputname "in.bin" config_init) "in" 3 [x01; x02; x03])
              example_world = example_world)
  \/ (0 = 0 /\ EmptyString = EmptyString
      /\ (exists inp, In inp ["in.bin"%string] /\ is_Some (files example_world !! inp))
      /\ locked (write_file false "in.h"
                   (output_text (set_inputname "in.bin" config_init) "in" 3 [x01; x02; x03])
                   example_world) = locked example_world
      /\ exists out, (out ∉ locked example_world)
           /\ is_Some (files (write_file false "in.h"
                                (output_text (set_inputname "in.bin" config_init) "in" 3
                                   [x01; x02; x03]) example_world) !! out)
           /\ forall name, name <> out ->
                files (write_file false "in.h"
                         (output_text (set_inputname "in.bin" config_init) "in" 3
                            [x01; x02; x03]) example_world) !! name
                = files example_world !! name).
Proof.
  apply (run_touches_only_the_output "bin2c" ["in.bin"%string] example_world 0 EmptyString).
  reflexivity.
Defined.

Lemma run_success (c : config) (w : world) (e : string) (w' : world) :
  run c w = Exit 0 e w' ->
  exists inp symbol contents,
    f_inputname c = Some inp
    /\ symbol_name (symbolname c) inp = Some symbol
    /\ files w !! inp = Some contents
    /\ w' = write_file (is_appending c) (output_name c inp)
              (output_text c symbol (load_size (zero_terminate c) contents)
                 (load_buffer (zero_terminate c) contents)) w.
Proof.
  unfold run, output_name. intros Hr.
  destruct (f_inputname c) as [inp |] eqn:Hin; [| discriminate].
  destruct (symbol_name (symbolname c) inp) as [symbol |] eqn:Hsym; [| discriminate].
  destruct (files w !! inp) as [contents |] eqn:Hfile; [| discriminate].
  destruct (decide (_ ∈ locked w)); [discriminate |].
  injection Hr as _ <-. exists inp, symbol, contents.
  repeat split; first [assumption | reflexivity].
Qed.

(** X22. Appending keeps what the output file held: after a successful
    run with [-a], the previous contents of the output file are the
    beginning of its new contents, and what follows them starts with the
    empty line that separates declarations, not with the
    [generated by] comment. *)
Theorem append_keeps_previous_contents c w e w' inp old :
  run c w = Exit 0 e w' ->
  is_appending c = true ->
  f_inputname c = Some inp ->
  files w !! output_name c inp = Some old ->
  exists added,
    files w' !! output_name c inp = Some (old ++ list_byte_of_string (nl +:+ nl +:+ added)).
Proof.
  intros Hr Happ Hin Hold.
  destruct (run_success c w e w' Hr) as (inp' & symbol & contents & Hin' & _ & _ & ->).
  rewrite Hin in Hin'. injection Hin' as <-.
  unfold write_file. cbn [files]. rewrite lookup_insert_eq, Happ, Hold.
  unfold output_text. rewrite Happ, append_nil_l.
  eexists. reflexivity.
Qed.

Lemma append_keeps_previous_contents_witness :
  exists added,
    files (write_file true "dir/a.bin"
             (output_text (set_appending (set_outputname "dir/a.bin"
                             (set_inputname "in.bin" config_init))) "in" 3 [x01; x02; x03])
             example_world) !! output_name (set_appending (set_outputname "dir/a.bin"
                                               (set_inputname "in.bin" config_init))) "in.bin"
    = Some ([xff] ++ list_byte_of_string (nl +:+ nl +:+ added)).
Proof.
  apply (append_keeps_previous_contents
           (set_appending (set_outputname "dir/a.bin" (set_inputname "in.bin" config_init)))
           example_world EmptyString _ "in.bin" [xff]); reflexivity.
Defined.

(** X23. Overwriting ignores what the output file held: without [-a],
    two successful runs of the same configuration on file systems that
    agree on the input file leave the same contents in the output
    file. *)
Theorem overwrite_ignores_previous_contents c w1 w2 e1 e2 w1' w2' inp :
  run c w1 = Exit 0 e1 w1' ->
  run c w2 = Exit 0 e2 w2' ->
  is_appending c = false ->
  f_inputname c = Some inp ->
  files w1 !! inp = files w2 !! inp ->
  files w1' !! output_name c inp = files w2' !! output_name c inp.
Proof.
  intros Hr1 Hr2 Happ Hin Hsame.
  destruct (run_success c w1 e1 w1' Hr1) as (i1 & s1 & c1 & Hi1 & Hs1 & Hf1 & ->).
  destruct (run_success c w2 e2 w2' Hr2) as (i2 & s2 & c2 & Hi2 & Hs2 & Hf2 & ->).
  rewrite Hin in Hi1, Hi2. injection Hi1 as <-. injection Hi2 as <-.
  rewrite Hs1 in Hs2. injection Hs2 as <-.
  rewrite Hsame, Hf2 in Hf1. injection Hf1 as <-.
  unfold write_file. cbn [files]. rewrite !lookup_insert_eq, Happ. reflexivity.
Qed.

Lemma overwrite_ignores_previous_contents_witness :
  files (write_file false "dir/a.bin"
           (output_text (set_outputname "dir/a.bin" (set_inputname "in.bin" config_init))
              "in" 3 [x01; x02; x03]) example_world)
    !! output_name (set_outputname "dir/a.bin" (set_inputname "in.bin" config_init)) "in.bin"
  = files (write_file false "dir/a.bin"
             (output_text (set_outputname "dir/a.bin" (set_inputname "in.bin" config_init))
                "in" 3 [x01; x02; x03])
             {| files := delete "dir/a.bin"%string (files example_world);
                locked := locked example_world |})
      !! output_name (set_outputname "dir/a.bin" (set_inputname "in.bin" config_init)) "in.bin".
Proof.
  apply (overwrite_ignores_previous_contents
           (set_outputname "dir/a.bin" (set_inputname "in.bin" config_init))
           example_world
           {| files := delete "dir/a.bin"%string (files example_world);
              locked := locked example_world |}
           EmptyString EmptyString _ _ "in.bin"); reflexivity.
Defined.

(** ** The earlier version *)

Lemma parse_args_v1_app : forall (n : nat) (pre more : list string) (c0 c : config),
  length pre = n ->
  parse_args_v1 pre c0 = Parsed c ->
  parse_args_v1 (pre ++ more) c0 = parse_args_v1 more c.
Proof.
  induction n as [n IH] using lt_wf_ind. intros pre more c0 c Hn Hp.
  destruct pre as [| a pre].
  - cbn in Hp. injection Hp as ->. reflexivity.
  - assert (IH1 : forall c1, parse_args_v1 pre c1 = Parsed c ->
                             parse_args_v1 (pre ++ more) c1 = parse_args_v1 more c).
    { intros c1 H1. apply (IH (length pre)); [subst n; cbn; lia | reflexivity | exact H1]. }
    assert (IH2 : forall v pre' c1, pre = v :: pre' -> parse_args_v1 pre' c1 = Parsed c ->
                                    parse_args_v1 (pre' ++ more) c1 = parse_args_v1 more c).
    { intros v pre' c1 -> H1.
      apply (IH (length pre')); [subst n; cbn; lia | reflexivity | exact H1]. }
    cbn [parse_args_v1 app] in *.
    repeat match type of Hp with
           | (if ?b then _ else _) = _ => destruct b
           | (let _ := _ in _) = _ => cbv zeta in Hp |- *
           | match ?l with [] => _ | _ :: _ => _ end = _ =>
               destruct l as [| v pre'] eqn:Epre; cbn [app] in *
           | match ?o with Some _ => _ | None => _ end = _ => destruct o
           | Stopped _ = Parsed _ => discriminate Hp
           end;
      first [ now apply IH1 | now eapply IH2 | discriminate Hp ].
Qed.

(** X24. In the earlier version a label given in the next argument must
    start with a letter or an underscore: otherwise, the empty label
    included, the run ends with status 1 and the message
    [Invalid C symbol name], and the files are what they were. *)
Theorem v1_label_must_start_an_identifier prog pre a l rest c w :
  parse_args_v1 pre config_init = Parsed c ->
  a = "-l"%string \/ a = "--label"%string ->
  label_start_ok l = false ->
  main_v1 (prog :: pre ++ a :: l :: rest) w
  = Exit 1 ("ERROR: Invalid C symbol name '" +:+ l +:+ "'." +:+ nl) w.
Proof.
  intros Hpre Ha Hbad. unfold main_v1.
  assert (Hp : parse_args_v1 (pre ++ a :: l :: rest) config_init
               = Stopped (Fatal (symbol_error l))).
  { rewrite (parse_args_v1_app (length pre) pre (a :: l :: rest) config_init c eq_refl Hpre).
    destruct Ha as [-> | ->].
    - change (parse_args_v1 ("-l"%string :: l :: rest) c)
        with (if label_start_ok l then parse_args_v1 rest (set_symbolname l c)
              else Stopped (Fatal (symbol_error l))).
      now rewrite Hbad.
    - change (parse_args_v1 ("--label"%string :: l :: rest) c)
        with (if label_start_ok l then parse_args_v1 rest (set_symbolname l c)
              else Stopped (Fatal (symbol_error l))).
      now rewrite Hbad. }
  destruct (pre ++ a :: l :: rest) as [| x t] eqn:E.
  - destruct pre; discriminate E.
  - rewrite Hp. unfold stop_v1, diagnostic_v1, symbol_error.
    now rewrite !append_assoc.
Qed.

Lemma v1_label_must_start_an_identifier_witness :
  main_v1 ("bin2c" :: ["in.bin"] ++ "--label" :: "9lives" :: ["-z"])%string example_world
  = Exit 1 ("ERROR: Invalid C symbol name '" +:+ "9lives" +:+ "'." +:+ nl) example_world.
Proof.
  apply (v1_label_must_start_an_identifier "bin2c" ["in.bin"]%string "--label" "9lives"
           ["-z"]%string (set_inputname "in.bin" config_init) example_world).
  - reflexivity.
  - now right.
  - reflexivity.
Defined.

(** One round of both loops on an argument they share: both stop with
    the same failure, or both go on with the same rest and the same
    configuration, whose label and qualifier flags are untouched. *)
Lemma shared_step (a : string) (rest : list string) (c : config) :
  shared_argument a = true ->
  (exists f, parse_args (a :: rest) c = Stopped f /\ parse_args_v1 (a :: rest) c = Stopped f)
  \/ (exists rest' c',
        (rest' = rest \/ exists v, rest = v :: rest')
        /\ parse_args (a :: rest) c = parse_args rest' c'
        /\ parse_args_v1 (a :: rest) c = parse_args_v1 rest' c'
        /\ is_mutable c' = is_mutable c
        /\ symbolname c' = symbolname c).
Proof.
  intros Hs. unfold shared_argument, strcmp_eq in Hs.
  destruct (Ascii.eqb (char_at a 0) "-") eqn:Hd.
  - cbn [negb orb] in Hs.
    destruct (String.eqb_spec a "-a") as [-> | _].
    { right. exists rest, (set_appending c). repeat split; auto. }
    destruct (String.eqb_spec a "--append") as [-> | _].
    { right. exists rest, (set_appending c). repeat split; auto. }
    cbn [orb] in Hs.
    destruct (is_bits_option a) eqn:Hopt.
    { cbn [parse_args parse_args_v1].
      rewrite Hd, (bits_option_not_append a Hopt), Hopt. cbv zeta.
      destruct (isdigit (char_at a (if Ascii.eqb (char_at a 1) "-" then 6%nat else 2%nat))).
      - destruct (valid_bitsize (uint32 (atoi (string_from
                   (if Ascii.eqb (char_at a 1) "-" then 6%nat else 2%nat) a)))).
        + right. eexists rest, _. repeat split; auto.
        + left. eauto.
      - destruct rest as [| v rest']; [left; eauto |].
        destruct (Ascii.eqb (char_at a (if Ascii.eqb (char_at a 1) "-" then 6%nat else 2%nat))
                    NUL); [| left; eauto].
        destruct (valid_bitsize (uint32 (atoi v))); [| left; eauto].
        right. eexists rest', _. repeat split; eauto. }
    cbn [orb] in Hs.
    destruct (String.eqb_spec a "-t") as [-> | _].
    { right. exists rest, (set_textfile c). repeat split; auto. }
    destruct (String.eqb_spec a "--text") as [-> | _].
    { right. exists rest, (set_textfile c). repeat split; auto. }
    destruct (String.eqb_spec a "-z") as [-> | _].
    { right. exists rest, (set_zero c). repeat split; auto. }
    destruct (String.eqb_spec a "--zero") as [-> | _].
    { right. exists rest, (set_zero c). repeat split; auto. }
    discriminate Hs.
  - cbn [parse_args parse_args_v1]. rewrite Hd.
    destruct (f_inputname c) as [i |].
    + destruct (f_outputname c) as [o |]; [left; eauto |].
      right. eexists rest, _. repeat split; auto.
    + right. eexists rest, _. repeat split; auto.
Qed.

Lemma shared_parse_same : forall (n : nat) (args : list string) (c : config),
  length args = n ->
  forallb shared_argument args = true ->
  parse_args_v1 args c = parse_args args c.
Proof.
  induction n as [n IH] using lt_wf_ind. intros args c Hn Hall.
  destruct args as [| a rest]; [reflexivity |].
  cbn [forallb] in Hall. apply andb_true_iff in Hall as [Ha Hrest].
  destruct (shared_step a rest c Ha) as [[f [H2 H1]] | (rest' & c' & Hr & H2 & H1 & _)].
  - now rewrite H1, H2.
  - rewrite H1, H2. destruct Hr as [-> | [v ->]].
    + apply (IH (length rest)); [subst n; cbn; lia | reflexivity | exact Hrest].
    + cbn [forallb] in Hrest. apply andb_true_iff in Hrest as [_ Hrest'].
      apply (IH (length rest')); [subst n; cbn; lia | reflexivity | exact Hrest'].
Qed.

Lemma shared_parse_keeps : forall (n : nat) (args : list string) (c0 c : config),
  length args = n ->
  forallb shared_argument args = true ->
  parse_args args c0 = Parsed c ->
  is_mutable c = is_mutable c0 /\ symbolname c = symbolname c0.
Proof.
  induction n as [n IH] using lt_wf_ind. intros args c0 c Hn Hall Hp.
  destruct args as [| a rest].
  - cbn in Hp. injection Hp as ->. now split.
  - cbn [forallb] in Hall. apply andb_true_iff in Hall as [Ha Hrest].
    destruct (shared_step a rest c0 Ha) as [[f [H2 _]] | (rest' & c' & Hr & H2 & _ & Hm & Hsym)].
    + rewrite H2 in Hp. discriminate.
    + rewrite H2 in Hp. rewrite <- Hm, <- Hsym. destruct Hr as [-> | [v ->]].
      * apply (IH (length rest) ltac:(subst n; cbn; lia) rest c' c eq_refl Hrest Hp).
      * cbn [forallb] in Hrest. apply andb_true_iff in Hrest as [_ Hrest'].
        apply (IH (length rest') ltac:(subst n; cbn; lia) rest' c' c eq_refl Hrest' Hp).
Qed.

Lemma legal_identifier_no_NUL (s : string) :
  legal_identifier s = true -> s <> EmptyString /\ has_NUL s = false.
Proof.
  intros H. destruct s as [| c r]; [discriminate |]. split; [discriminate |].
  cbn [legal_identifier] in H. apply andb_true_iff in H as [Hf Hn].
  apply legal_first_next in Hf.
  assert (G : forall l, forallb legal_next l = true ->
                        existsb (fun d => Ascii.eqb d NUL) l = false).
  { induction l as [| d l IHl]; intros Hl; [reflexivity |].
    cbn [forallb existsb] in *. apply andb_true_iff in Hl as [Hd Hl].
    rewrite (IHl Hl), orb_false_r.
    destruct (Ascii.eqb_spec d NUL) as [-> | _]; [discriminate Hd | reflexivity]. }
  unfold has_NUL. cbn [list_ascii_of_string existsb].
  rewrite (G _ Hn), orb_false_r.
  destruct (Ascii.eqb_spec c NUL) as [-> | _]; [discriminate Hf | reflexivity].
Qed.

(** X25. The two versions agree on what they share.  On a command line
    made of file names and the options [-a], [-b], [-t] and [-z] that is
    accepted, where the base name of the input file is a legal C
    identifier, the earlier and the current version end with the same
    status and message and leave the same files: the current version only
    adds options and the repair of illegal names. *)
Theorem versions_agree_on_shared_arguments prog args c inp w :
  forallb shared_argument args = true ->
  parse_args args config_init = Parsed c ->
  f_inputname c = Some inp ->
  legal_identifier (remove_extension (skip_dirs inp)) = true ->
  main_v1 (prog :: args) w = main (prog :: args) w.
Proof.
  intros Hall Hp Hin Hlegal.
  destruct args as [| a args]; [cbn in Hp; injection Hp as <-; discriminate Hin |].
  unfold main_v1, main.
  rewrite (shared_parse_same (length (a :: args)) (a :: args) config_init eq_refl Hall), Hp.
  destruct (shared_parse_keeps (length (a :: args)) (a :: args) config_init c eq_refl Hall Hp)
    as [Hmut Hsym].
  cbn [is_mutable symbolname config_init] in Hmut, Hsym.
  destruct (legal_identifier_no_NUL _ Hlegal) as [Hne Hnul].
  assert (Hname : symbol_name None inp = Some (remove_extension (skip_dirs inp))).
  { pose proof (symbol_name_of_text None inp) as H. cbv beta iota zeta in H.
    change (substitute "$*" (remove_extension (skip_dirs inp)) (skip_dirs inp))
      with (remove_extension (skip_dirs inp) +:+ EmptyString)%string in H.
    rewrite append_nil_r in H.
    rewrite H; [| cbn; lia | cbn; lia | assumption | assumption].
    f_equal. now apply sanitize_name_nonempty. }
  unfold run_v1, run. rewrite Hin, Hsym, Hname.
  cbn [symbol_name_v1].
  destruct (files w !! inp) as [contents |]; [| reflexivity].
  destruct (decide (_ ∈ locked w)); [reflexivity |].
  unfold output_text_v1, output_text, array_head. rewrite Hmut, !append_assoc. reflexivity.
Qed.

Lemma versions_agree_on_shared_arguments_witness :
  main_v1 ["bin2c"; "dir/a.bin"; "-z"; "--bits"; "16"; "out.h"; "-a"]%string example_world
  = main ["bin2c"; "dir/a.bin"; "-z"; "--bits"; "16"; "out.h"; "-a"]%string example_world.
Proof.
  apply (versions_agree_on_shared_arguments "bin2c"
           ["dir/a.bin"; "-z"; "--bits"; "16"; "out.h"; "-a"]%string
           (set_appending (set_outputname "out.h" (set_bitsize 16 (set_zero
              (set_inputname "dir/a.bin" config_init))))) "dir/a.bin" example_world);
    reflexivity.
Defined.
